(** * The Hack assembler (package [hack], assembler.go)

    A shallow embedding of the two-pass assembler: the line parser
    ([parse], [parseAInstruction], [parseCInstruction], [parseLabel]), the
    symbol table built by [code], and the bit-field encoder
    ([codeAInstruction], [codeCInstruction] with its four lookup tables).

    Go strings are byte sequences: they are [string] (a list of [ascii]).
    [uint16] values are integers in [Z] with the wrap-around of [++] written
    as [uint16].  Go maps are [gmap]s.  The pieces of the Go standard library
    the assembler calls are modelled first, one module per package. *)

From Stdlib Require Import ZArith Ascii String List Lia.
From stdpp Require Import gmap strings list fin_maps.

Local Open Scope string_scope.
Local Open Scope list_scope.
Local Open Scope Z_scope.

(** ** Bytes and slices of Go strings *)

Definition byte (c : ascii) : Z := Z.of_N (N_of_ascii c).

(** The line feed, which Rocq's string syntax cannot escape. *)
Definition LF : ascii := "010"%char.
Definition nl : string := String LF "".

(** [len(s)] *)
Definition len (s : string) : Z := Z.of_nat (String.length s).

Module Str.

(** [s[n:]] *)
Fixpoint from (n : nat) (s : string) : string :=
  match n, s with
  | O, _ => s
  | S n', String _ s' => from n' s'
  | S _, EmptyString => EmptyString
  end.

(** [s[:n]] *)
Fixpoint upto (n : nat) (s : string) : string :=
  match n, s with
  | O, _ => EmptyString
  | S n', String c s' => String c (upto n' s')
  | S _, EmptyString => EmptyString
  end.

Fixpoint revOnto (s : string) (acc : string) : string :=
  match s with
  | EmptyString => acc
  | String c s' => revOnto s' (String c acc)
  end.

Definition reverse (s : string) : string := revOnto s "".

(** The first byte [s[0]] and the last byte [s[len(s)-1]], if any. *)
Definition first (s : string) : option ascii :=
  match s with
  | EmptyString => None
  | String c _ => Some c
  end.

Fixpoint last (s : string) : option ascii :=
  match s with
  | EmptyString => None
  | String c EmptyString => Some c
  | String _ s' => last s'
  end.

End Str.

Definition within (lo hi b : Z) : bool := (lo <=? b) && (b <=? hi).

(** ** Package unicode/utf8 *)
Module Utf8.

Definition RuneError : Z := 0xFFFD.
Definition RuneSelf : Z := 0x80.

Definition continuation (b : Z) : bool := within 0x80 0xBF b.

(** [RuneStart]: the byte is not a continuation byte. *)
Definition RuneStart (b : Z) : bool := negb (Z.land b 0xC0 =? 0x80).

Definition low6 (b : Z) : Z := Z.land b 0x3F.

(** [DecodeRuneInString]: the first rune of [s] and its width in bytes;
    an invalid or incomplete encoding is [RuneError] of width 1. *)
Definition DecodeRuneInString (s : string) : Z * nat :=
  match s with
  | EmptyString => (RuneError, 0%nat)
  | String c0 s1 =>
    let b0 := byte c0 in
    if b0 <? RuneSelf then (b0, 1%nat)
    else if within 0xC2 0xDF b0 then
      match s1 with
      | String c1 _ =>
        let b1 := byte c1 in
        if continuation b1
        then (Z.lor (Z.shiftl (Z.land b0 0x1F) 6) (low6 b1), 2%nat)
        else (RuneError, 1%nat)
      | _ => (RuneError, 1%nat)
      end
    else if within 0xE0 0xEF b0 then
      match s1 with
      | String c1 (String c2 _) =>
        let b1 := byte c1 in
        let b2 := byte c2 in
        let lo := if b0 =? 0xE0 then 0xA0 else 0x80 in
        let hi := if b0 =? 0xED then 0x9F else 0xBF in
        if within lo hi b1 && continuation b2
        then (Z.lor (Z.shiftl (Z.land b0 0x0F) 12)
                (Z.lor (Z.shiftl (low6 b1) 6) (low6 b2)), 3%nat)
        else (RuneError, 1%nat)
      | _ => (RuneError, 1%nat)
      end
    else if within 0xF0 0xF4 b0 then
      match s1 with
      | String c1 (String c2 (String c3 _)) =>
        let b1 := byte c1 in
        let b2 := byte c2 in
        let b3 := byte c3 in
        let lo := if b0 =? 0xF0 then 0x90 else 0x80 in
        let hi := if b0 =? 0xF4 then 0x8F else 0xBF in
        if within lo hi b1 && continuation b2 && continuation b3
        then (Z.lor (Z.shiftl (Z.land b0 0x07) 18)
                (Z.lor (Z.shiftl (low6 b1) 12)
                   (Z.lor (Z.shiftl (low6 b2) 6) (low6 b3))), 4%nat)
        else (RuneError, 1%nat)
      | _ => (RuneError, 1%nat)
      end
    else (RuneError, 1%nat)
  end.

(** The runes a [for _, r := range s] loop visits.  Every step consumes
    at least one byte, so [String.length s] steps are enough. *)
Fixpoint rangeFrom (steps : nat) (s : string) : list Z :=
  match steps, s with
  | O, _ | _, EmptyString => []
  | S k, _ =>
    let '(r, w) := DecodeRuneInString s in
    r :: rangeFrom k (Str.from w s)
  end.

Definition range (s : string) : list Z := rangeFrom (String.length s) s.

(** [DecodeLastRuneInString], on the reversed string [r] (last byte
    first): step back over at most three continuation bytes to a start
    byte and decode forward from there; the rune counts only when it ends
    exactly at the end of the string. *)
Definition startWithin (r : string) : option nat :=
  match r with
  | String _ (String c1 r1) =>
    if RuneStart (byte c1) then Some 2%nat else
    match r1 with
    | String c2 r2 =>
      if RuneStart (byte c2) then Some 3%nat else
      match r2 with
      | String c3 _ => if RuneStart (byte c3) then Some 4%nat else None
      | _ => None
      end
    | _ => None
    end
  | _ => None
  end.

Definition DecodeLastRuneInString (r : string) : Z * nat :=
  match r with
  | EmptyString => (RuneError, 0%nat)
  | String c _ =>
    if byte c <? RuneSelf then (byte c, 1%nat)
    else match startWithin r with
         | Some k =>
           let '(x, size) := DecodeRuneInString (Str.reverse (Str.upto k r)) in
           if (size =? k)%nat then (x, size) else (RuneError, 1%nat)
         | None => (RuneError, 1%nat)
         end
  end.

End Utf8.

(** ** Package unicode

    Runes up to [MaxLatin1] are classified by the package's Latin-1
    property table, written out here.  Above it the package searches its
    range tables [Letter] and [Digit]; those tables are the parameters of
    the development. *)
Module Unicode.

Class RangeTables := {
  Letter : Z → bool;
  Digit : Z → bool
}.

Definition MaxLatin1 : Z := 0xFF.

Definition latin1Letter (r : Z) : bool :=
  within 0x41 0x5A r || within 0x61 0x7A r
  || (r =? 0xAA) || (r =? 0xB5) || (r =? 0xBA)
  || within 0xC0 0xD6 r || within 0xD8 0xF6 r || within 0xF8 0xFF r.

Definition IsDigit `{RangeTables} (r : Z) : bool :=
  if within 0 MaxLatin1 r then within 0x30 0x39 r else Digit r.

Definition IsLetter `{RangeTables} (r : Z) : bool :=
  if within 0 MaxLatin1 r then latin1Letter r else Letter r.

(** [IsSpace]: the White_Space property; its table is small enough to
    write out in full. *)
Definition IsSpace (r : Z) : bool :=
  if within 0 MaxLatin1 r
  then within 0x09 0x0D r || (r =? 0x20) || (r =? 0x85) || (r =? 0xA0)
  else (r =? 0x1680) || within 0x2000 0x200A r || within 0x2028 0x2029 r
       || (r =? 0x202F) || (r =? 0x205F) || (r =? 0x3000).

End Unicode.

(** ** Package strings *)
Module Strings.

(** [Index]: the offset of the first instance of [sep] in [s]. *)
Fixpoint Index (s sep : string) : option nat :=
  if String.prefix sep s then Some O
  else match s with
       | EmptyString => None
       | String _ s' => S <$> Index s' sep
       end.

(** [Cut]: the text before and after the first instance of [sep]; without
    one, [s] itself, the empty string and [false]. *)
Definition Cut (s sep : string) : string * string * bool :=
  match Index s sep with
  | Some i => (Str.upto i s, Str.from (i + String.length sep) s, true)
  | None => (s, "", false)
  end.

Fixpoint trimLeftSpace (steps : nat) (s : string) : string :=
  match steps with
  | O => s
  | S k =>
    let '(r, w) := Utf8.DecodeRuneInString s in
    if Unicode.IsSpace r then trimLeftSpace k (Str.from w s) else s
  end.

(** On the reversed string. *)
Fixpoint trimRightSpace (steps : nat) (r : string) : string :=
  match steps with
  | O => r
  | S k =>
    let '(x, w) := Utf8.DecodeLastRuneInString r in
    if Unicode.IsSpace x then trimRightSpace k (Str.from w r) else r
  end.

(** [TrimSpace]: drop the leading, then the trailing white-space runes. *)
Definition TrimSpace (s : string) : string :=
  let l := trimLeftSpace (String.length s) s in
  Str.reverse (trimRightSpace (String.length l) (Str.reverse l)).

Definition inCutset (cutset : string) (c : ascii) : bool :=
  existsb (Ascii.eqb c) (list_ascii_of_string cutset).

Fixpoint trimLeftASCII (s cutset : string) : string :=
  match s with
  | EmptyString => EmptyString
  | String c s' => if inCutset cutset c then trimLeftASCII s' cutset else s
  end.

Definition trimRightASCII (s cutset : string) : string :=
  Str.reverse (trimLeftASCII (Str.reverse s) cutset).

(** [Trim], for a cutset of ASCII bytes (the assembler's is ["()"]): the
    package then works on bytes. *)
Definition Trim (s cutset : string) : string :=
  trimLeftASCII (trimRightASCII s cutset) cutset.

End Strings.

(** ** Package strconv *)
Module Strconv.

Inductive NumError := ErrSyntax | ErrRange.

Definition maxUint64 : Z := 2 ^ 64 - 1.

Definition lower (c : Z) : Z := Z.lor c 0x20.

(** The value of a digit byte, if it is one. *)
Definition digitVal (c : Z) : option Z :=
  if within 0x30 0x39 c then Some (c - 0x30)
  else if within 0x61 0x7A (lower c) then Some (lower c - 0x61 + 10)
  else None.

Fixpoint parseDigits (s : string) (base cutoff maxVal n : Z) : Z + NumError :=
  match s with
  | EmptyString => inl n
  | String c s' =>
    match digitVal (byte c) with
    | None => inr ErrSyntax
    | Some d =>
      if base <=? d then inr ErrSyntax
      else if cutoff <=? n then inr ErrRange
      else
        let n := n * base in
        let n1 := (n + d) mod 2 ^ 64 in
        if (n1 <? n) || (maxVal <? n1) then inr ErrRange
        else parseDigits s' base cutoff maxVal n1
    end
  end.

(** [ParseUint(s, base, bitSize)] for an explicit base (2 to 36) and a
    bit size from 1 to 64: no sign, no prefix and no underscore is
    accepted. *)
Definition ParseUint (s : string) (base bitSize : Z) : Z + NumError :=
  match s with
  | EmptyString => inr ErrSyntax
  | _ => parseDigits s base (maxUint64 / base + 1) (2 ^ bitSize - 1) 0
  end.

End Strconv.

(** ** Package bufio *)
Module Bufio.

Definition MaxScanTokenSize : Z := 64 * 1024.

(** [dropCR]: a line loses one trailing carriage return. *)
Definition dropCR (reversed : string) : string :=
  match reversed with
  | String "013"%char r => Str.reverse r
  | _ => Str.reverse reversed
  end.

(** The tokens a [Scanner] with the default [ScanLines] split and buffer
    yields over the text [s]: [line] is the current line so far, last
    byte first, and [n] its length.  A line ends at a line feed; the last
    line may lack one.  The scanner gives up, and [Scan] reports false,
    once [MaxScanTokenSize] bytes hold no line feed. *)
Fixpoint scanLines (s : string) (line : string) (n : Z) : list string :=
  match s with
  | EmptyString => if n =? 0 then [] else [dropCR line]
  | String c s' =>
    if Ascii.eqb c LF then dropCR line :: scanLines s' "" 0
    else if MaxScanTokenSize <=? n + 1 then []
    else scanLines s' (String c line) (n + 1)
  end.

Definition Scan (s : string) : list string := scanLines s "" 0.

End Bufio.

(** ** Package fmt *)
Module Fmt.

Fixpoint bits (p : positive) : string :=
  match p with
  | xH => "1"
  | xO q => bits q +:+ "0"
  | xI q => bits q +:+ "1"
  end.

(** The verb [%b] on an unsigned integer. *)
Definition b (v : Z) : string :=
  match v with
  | Zpos p => bits p
  | _ => "0"
  end.

Fixpoint zeros (n : nat) : string :=
  match n with
  | O => ""
  | S k => String "0" (zeros k)
  end.

(** The verb [%016b]: [%b] padded with zeros on the left to 16 bytes. *)
Definition b016 (v : Z) : string :=
  let s := b v in zeros (16 - String.length s) +:+ s.

End Fmt.

(** ** The instruction model (assembler.go, lines 15-44) *)

(** The conversion [uint16(v)], and the result of [++] on a [uint16]. *)
Definition uint16 (v : Z) : Z := v mod 2 ^ 16.

(** A-instruction: a constant or a symbol, pre- or user-defined. *)
Record aInstruction := mkA {
  Literal : string;
  IsSymbol : bool;
  Value : Z
}.

(** C-instruction: a computation of the form dest=comp;jump. *)
Record cInstruction := mkC {
  Dest : string;
  Comp : string;
  Jump : string
}.

(** A label declaration, the pseudo-instruction that yields no machine
    code.  Its field is [Literal] in the source. *)
Record label := mkLabel {
  labelLiteral : string
}.

(** The interface [instruction] and its three implementations. *)
Inductive instruction :=
  | AIns (a : aInstruction)
  | CIns (c : cInstruction)
  | Lbl (l : label).

#[global] Instance aInstruction_eq_dec : EqDecision aInstruction.
Proof. solve_decision. Defined.
#[global] Instance cInstruction_eq_dec : EqDecision cInstruction.
Proof. solve_decision. Defined.
#[global] Instance label_eq_dec : EqDecision label.
Proof. solve_decision. Defined.
#[global] Instance instruction_eq_dec : EqDecision instruction.
Proof. solve_decision. Defined.

(** ** Errors

    The source builds its errors with [errors.New] and [fmt.Errorf]; there
    is one constructor per message, carrying the values the message
    prints. *)
Inductive error :=
  | errAtAlone
      (* "failed to parse A-instruction: @ needs to be followed by a
         constant or symbol" *)
  | errNotUint15 (e : Strconv.NumError)
      (* "failed to parse A-instruction: expected unsigned 15-bit value" *)
  | errIllegalCharacter
      (* "failed to parse A-instruction: literal contains illegal
         character ..." (parseAInstruction and parseLabel) *)
  | errLabelShort
      (* "failed to parse label: label definitions need to define symbols
         enclosed in ()." *)
  | errLabelLeading
      (* "failed to parse label: ... Missing leading (" *)
  | errLabelClosing
      (* "failed to parse label: ... Missing closing )" *)
  | errRedeclared (literal : string)
      (* "failed to encode label %q: label re-declared" *)
  | errPredefined (literal : string)
      (* "failed to encode label: %q is a pre-defined symbol which cannot
         be used as a label" *)
  | errABit (comp : string)
      (* "failed to encode a-bit from comp field %q" *)
  | errCBits (comp : string)
      (* "failed to encode c-bits from comp field %q" *)
  | errDBits (dest : string)
      (* "failed to encode d-bits from dest field %q" *)
  | errJBits (jump : string)
      (* "failed to encode j-bits from jump field %q" *)
  | errEncodeC (ins : cInstruction) (e : error)
      (* "failed to encode c-instruction %v: %v" *)
  | errShortWriteA (ins : aInstruction) (n : Z)
      (* "failed to write entire a-instruction %v: wrote %d instead of 17
         bytes/chars" *)
  | errWriteA (ins : aInstruction) (e : string)
      (* "failed to write a-instruction %v: %v" *)
  | errShortWriteC (ins : cInstruction) (n : Z)
      (* "failed to write entire c-instruction %v: wrote %d instead of 16
         bytes/chars" *)
  | errWriteC (ins : cInstruction) (e : string).
      (* "failed to write c-instruction %v: %v" *)

(** The kinds of error the design distinguishes, and the kind of each
    error of the source. *)
Inductive errorKind :=
  | ParseError
  | DuplicateLabelError
  | ReservedSymbolError
  | UnknownMnemonicError
  | WriteError.

Fixpoint kindOf (e : error) : errorKind :=
  match e with
  | errAtAlone | errNotUint15 _ | errIllegalCharacter
  | errLabelShort | errLabelLeading | errLabelClosing => ParseError
  | errRedeclared _ => DuplicateLabelError
  | errPredefined _ => ReservedSymbolError
  | errABit _ | errCBits _ | errDBits _ | errJBits _ => UnknownMnemonicError
  | errEncodeC _ e' => kindOf e'
  | errShortWriteA _ _ | errWriteA _ _
  | errShortWriteC _ _ | errWriteC _ _ => WriteError
  end.

(** A Go result [(v, err)]: the value, or the error. *)
Abbreviation result T := (T + error)%type.

(** ** The parser (assembler.go, lines 62-182) *)
Section Parser.

Context `{Unicode.RangeTables}.

(** [s[0]] under a test of [len(s)]: the first byte ([NUL] stands for the
    index out of range, which no call below reaches). *)
Definition head (s : string) : ascii := default "000"%char (Str.first s).

(** validSymbolChars: a user-defined symbol is any sequence of letters,
    digits, underscore, dot, dollar sign and colon. *)
Definition validSymbolChars (r : Z) : bool :=
  Unicode.IsLetter r || Unicode.IsDigit r
  || (r =? byte "_") || (r =? byte ".") || (r =? byte "$") || (r =? byte ":").

(** containsOnly: every rune of [s] satisfies [f]. *)
Definition containsOnly (s : string) (f : Z → bool) : bool :=
  forallb f (Utf8.range s).

Definition parseAInstruction (in_ : string) : result aInstruction :=
  if len in_ <? 2 then inr errAtAlone
  else
    let in_ := Str.from 1 in_ in (* drop the @ *)
    if Unicode.IsDigit (byte (head in_)) then
      match Strconv.ParseUint in_ 10 15 with
      | inr err => inr (errNotUint15 err)
      | inl v => inl {| Literal := in_; IsSymbol := false; Value := uint16 v |}
      end
    else if containsOnly in_ validSymbolChars
    then inl {| Literal := in_; IsSymbol := true; Value := 0 |}
    else inr errIllegalCharacter.

Definition parseCInstruction (in_ : string) : result cInstruction :=
  let '(dest, rest, foundEquals) := Strings.Cut in_ "=" in
  let '(dest, rest) := if foundEquals then (dest, rest) else ("", in_) in
  let '(comp, jump, foundSemicolon) := Strings.Cut rest ";" in
  inl {| Dest := Strings.TrimSpace dest;
         Comp := Strings.TrimSpace comp;
         Jump := Strings.TrimSpace jump |}.

Definition parseLabel (in_ : string) : result label :=
  if len in_ <? 3 then inr errLabelShort
  else if negb (Ascii.eqb (head in_) "(") then inr errLabelLeading
  else if negb (Ascii.eqb (default "000"%char (Str.last in_)) ")")
  then inr errLabelClosing
  else
    let in_ := Strings.Trim in_ "()" in
    if containsOnly in_ validSymbolChars
    then inl {| labelLiteral := in_ |}
    else inr errIllegalCharacter.

(** The body of the scanning loop of [parse], over the lines still to
    come and the instructions appended so far. *)
Fixpoint parseLines (lines : list string) (instructions : list instruction)
  : result (list instruction) :=
  match lines with
  | [] => inl instructions
  | text :: lines =>
    let '(line, _, _) := Strings.Cut text "//" in
    let command := Strings.TrimSpace line in
    if len command =? 0 then parseLines lines instructions
    else if Ascii.eqb (head command) "@" then
      match parseAInstruction command with
      | inr err => inr err
      | inl ins => parseLines lines (instructions ++ [AIns ins])
      end
    else if Ascii.eqb (head command) "(" then
      match parseLabel command with
      | inr err => inr err
      | inl ins => parseLines lines (instructions ++ [Lbl ins])
      end
    else
      match parseCInstruction command with
      | inr err => inr err
      | inl ins => parseLines lines (instructions ++ [CIns ins])
      end
  end.

(** parse: the reader is the text [r] it delivers.  The scanner's own
    error is not looked at (the source leaves it as a TODO). *)
Definition parse (r : string) : result (list instruction) :=
  parseLines (Bufio.Scan r) [].

End Parser.

(** ** The output sink

    [io.Writer]: [Write] takes the sink and the bytes and returns the sink
    afterwards, the number of bytes written and the sink's error, if any. *)
Class Writer (W : Type) := Write : W → string → W * (Z * option string).

(** [fmt.Fprintf] formats its operands and hands the text to [Write] in one
    call; [text] is the formatted text. *)
Definition Fprintf `{Writer W} (w : W) (text : string) : W * (Z * option string) :=
  Write w text.

(** [bytes.Buffer], the sink of the tests: a write appends and never fails. *)
Definition Buffer : Type := string.

#[global] Instance Buffer_Writer : Writer Buffer :=
  λ w p, (w +:+ p, (len p, None)).

(** ** The symbol and mnemonic tables (assembler.go, lines 184-208 and
    277-357) *)

Definition predefinedSymbols : gmap string Z :=
  list_to_map
    [("SP", 0); ("LCL", 1); ("ARG", 2); ("THIS", 3); ("THAT", 4);
     ("R0", 0); ("R1", 1); ("R2", 2); ("R3", 3); ("R4", 4); ("R5", 5);
     ("R6", 6); ("R7", 7); ("R8", 8); ("R9", 9); ("R10", 10); ("R11", 11);
     ("R12", 12); ("R13", 13); ("R14", 14); ("R15", 15);
     ("SCREEN", 16384); ("KBD", 24576)].

Definition compToA : gmap string string :=
  list_to_map
    [("0", "0"); ("1", "0"); ("-1", "0"); ("D", "0"); ("A", "0");
     ("!D", "0"); ("!A", "0"); ("-D", "0"); ("-A", "0"); ("D+1", "0");
     ("A+1", "0"); ("D-1", "0"); ("A-1", "0"); ("D+A", "0"); ("D-A", "0");
     ("A-D", "0"); ("D&A", "0"); ("D|A", "0"); ("M", "1"); ("!M", "1");
     ("-M", "1"); ("M+1", "1"); ("M-1", "1"); ("D+M", "1"); ("D-M", "1");
     ("M-D", "1"); ("D&M", "1"); ("D|M", "1")].

Definition compToC : gmap string string :=
  list_to_map
    [("0", "101010"); ("1", "111111"); ("-1", "111010"); ("D", "001100");
     ("A", "110000"); ("!D", "001101"); ("!A", "110001"); ("-D", "001111");
     ("-A", "110011"); ("D+1", "011111"); ("A+1", "110111");
     ("D-1", "001110"); ("A-1", "110010"); ("D+A", "000010");
     ("D-A", "010011"); ("A-D", "000111"); ("D&A", "000000");
     ("D|A", "010101"); ("M", "110000"); ("!M", "110001"); ("-M", "110011");
     ("M+1", "110111"); ("M-1", "110010"); ("D+M", "000010");
     ("D-M", "010011"); ("M-D", "000111"); ("D&M", "000000");
     ("D|M", "010101")].

Definition destToD : gmap string string :=
  list_to_map
    [("M", "001"); ("D", "010"); ("MD", "011"); ("A", "100"); ("AM", "101");
     ("AD", "110"); ("AMD", "111")].

Definition jumpToJ : gmap string string :=
  list_to_map
    [("JGT", "001"); ("JEQ", "010"); ("JGE", "011"); ("JLT", "100");
     ("JNE", "101"); ("JLE", "110"); ("JMP", "111")].

(** ** The encoder (assembler.go, lines 273-275 and 359-387) *)

Definition codeAInstruction (instruction : aInstruction) : Z :=
  Value instruction.

Definition codeCInstruction (instruction : cInstruction) : result string :=
  match compToA !! Comp instruction with
  | None => inr (errABit (Comp instruction))
  | Some aBit =>
    match compToC !! Comp instruction with
    | None => inr (errCBits (Comp instruction))
    | Some cBits =>
      match (if decide (Dest instruction = "") then Some "000"
             else destToD !! Dest instruction) with
      | None => inr (errDBits (Dest instruction))
      | Some dBits =>
        match (if decide (Jump instruction = "") then Some "000"
               else jumpToJ !! Jump instruction) with
        | None => inr (errJBits (Jump instruction))
        | Some jBits => inl ("111" +:+ aBit +:+ cBits +:+ dBits +:+ jBits)
        end
      end
    end
  end.

(** ** Resolution and emission: [code] (assembler.go, lines 212-271) *)

(** The first loop: a label binds its literal to the program counter; any
    other instruction advances the counter. *)
Fixpoint declare (instructions : list instruction)
    (symbolTable : gmap string Z) (pc : Z) : result (gmap string Z) :=
  match instructions with
  | [] => inl symbolTable
  | Lbl v :: instructions =>
    if decide (is_Some (symbolTable !! labelLiteral v))
    then inr (errRedeclared (labelLiteral v))
    else if decide (is_Some (predefinedSymbols !! labelLiteral v))
    then inr (errPredefined (labelLiteral v))
    else declare instructions (<[labelLiteral v := pc]> symbolTable) pc
  | _ :: instructions => declare instructions symbolTable (uint16 (pc + 1))
  end.

(** The second loop, [for k, v := range predefinedSymbols]: Go leaves the
    order of a map's entries open, so the order is an argument. *)
Definition predefine (order : list (string * Z)) (symbolTable : gmap string Z)
  : gmap string Z :=
  foldl (λ t kv, <[kv.1 := kv.2]> t) symbolTable order.

(** Lines 237-246: the instruction to encode for an A-instruction, with the
    symbol table and the next variable address afterwards. *)
Definition resolve (ins : aInstruction)
    (symbolTable : gmap string Z) (nextVariableAddress : Z)
  : aInstruction * gmap string Z * Z :=
  if IsSymbol ins then
    match symbolTable !! Literal ins with
    | Some v =>
      ({| Literal := ""; IsSymbol := false; Value := v |},
       symbolTable, nextVariableAddress)
    | None =>
      let v := nextVariableAddress in
      ({| Literal := ""; IsSymbol := false; Value := v |},
       <[Literal ins := v]> symbolTable, uint16 (nextVariableAddress + 1))
    end
  else (ins, symbolTable, nextVariableAddress).

Section Code.

Context `{Writer W}.

(** The third loop: one line of 17 bytes for every instruction but the
    labels. *)
Fixpoint emit (instructions : list instruction)
    (symbolTable : gmap string Z) (nextVariableAddress : Z) (w : W)
  : W * option error :=
  match instructions with
  | [] => (w, None)
  | AIns ins :: instructions =>
    let '(ains, symbolTable, nextVariableAddress) :=
      resolve ins symbolTable nextVariableAddress in
    let '(w, (n, err)) := Fprintf w (Fmt.b016 (codeAInstruction ains) +:+ nl) in
    if negb (n =? 17) then (w, Some (errShortWriteA ins n))
    else match err with
         | Some err => (w, Some (errWriteA ins err))
         | None => emit instructions symbolTable nextVariableAddress w
         end
  | CIns ins :: instructions =>
    match codeCInstruction ins with
    | inr err => (w, Some (errEncodeC ins err))
    | inl code =>
      let '(w, (n, err)) := Fprintf w (code +:+ nl) in
      if negb (n =? 17) then (w, Some (errShortWriteC ins n))
      else match err with
           | Some err => (w, Some (errWriteC ins err))
           | None => emit instructions symbolTable nextVariableAddress w
           end
    end
  | Lbl _ :: instructions => emit instructions symbolTable nextVariableAddress w
  end.

(** code, for a given order of the predefined symbols: the sink afterwards
    and the error returned, if any. *)
Definition codeIn (order : list (string * Z))
    (instructions : list instruction) (w : W) : W * option error :=
  match declare instructions ∅ 0 with
  | inr err => (w, Some err)
  | inl symbolTable => emit instructions (predefine order symbolTable) 16 w
  end.

Definition code (instructions : list instruction) (w : W) : W * option error :=
  codeIn (map_to_list predefinedSymbols) instructions w.

Context `{Unicode.RangeTables}.

(** Assemble: parse, then code. *)
Definition AssembleIn (order : list (string * Z)) (r : string) (w : W)
  : W * option error :=
  match parse r with
  | inr err => (w, Some err)
  | inl instructions => codeIn order instructions w
  end.

Definition Assemble (r : string) (w : W) : W * option error :=
  AssembleIn (map_to_list predefinedSymbols) r w.

End Code.

(** ** Notions the properties are stated with *)

Definition isLabel (i : instruction) : bool :=
  match i with Lbl _ => true | _ => false end.

(** The literals of the label declarations, in order. *)
Fixpoint labelsOf (instructions : list instruction) : list string :=
  match instructions with
  | [] => []
  | Lbl l :: rest => labelLiteral l :: labelsOf rest
  | _ :: rest => labelsOf rest
  end.

(** The number of instructions that are not label declarations: the
    program counter after them, before any wrap-around. *)
Fixpoint pcOf (instructions : list instruction) : Z :=
  match instructions with
  | [] => 0
  | Lbl _ :: rest => pcOf rest
  | _ :: rest => 1 + pcOf rest
  end.

(** The literals of the symbolic A-instructions, in order. *)
Fixpoint symbolsOf (instructions : list instruction) : list string :=
  match instructions with
  | [] => []
  | AIns a :: rest =>
    if IsSymbol a then Literal a :: symbolsOf rest else symbolsOf rest
  | _ :: rest => symbolsOf rest
  end.

(** A literal is reserved when it names a predefined symbol. *)
Definition reserved (literal : string) : Prop :=
  is_Some (predefinedSymbols !! literal).

(** The variables among [part] of the program [instructions]: the symbolic
    literals that are neither predefined symbols nor labels of the
    program. *)
Definition variablesOf (instructions part : list instruction) : gset string :=
  list_to_set (symbolsOf part)
  ∖ (dom predefinedSymbols ∪ list_to_set (labelsOf instructions)).

(** The symbol table and the next variable address once the third loop has
    passed [instructions]. *)
Fixpoint resolved (instructions : list instruction)
    (symbolTable : gmap string Z) (nextVariableAddress : Z)
  : gmap string Z * Z :=
  match instructions with
  | [] => (symbolTable, nextVariableAddress)
  | AIns a :: rest =>
    let '(_, symbolTable, nextVariableAddress) :=
      resolve a symbolTable nextVariableAddress in
    resolved rest symbolTable nextVariableAddress
  | _ :: rest => resolved rest symbolTable nextVariableAddress
  end.

(** The symbol table the third loop of [code] starts from. *)
Definition symbolTableBefore (instructions : list instruction)
  : option (gmap string Z) :=
  match declare instructions ∅ 0 with
  | inl t => Some (predefine (map_to_list predefinedSymbols) t)
  | inr _ => None
  end.

(** The symbol table at the end of a run of [code]. *)
Definition symbolTableOf (instructions : list instruction)
  : option (gmap string Z) :=
  t ← symbolTableBefore instructions;
  Some (resolved instructions t 16).1.

(** The value the A-instruction [a] is encoded with when [code], run on
    [instructions], reaches it after the instructions [pre]. *)
Definition resolvedValue (instructions pre : list instruction)
    (a : aInstruction) : option Z :=
  t ← symbolTableBefore instructions;
  let '(t1, n1) := resolved pre t 16 in
  Some (Value (resolve a t1 n1).1.1).

(** The fields of type [uint16] hold 16-bit values. *)
Definition isUint16 (v : Z) : Prop := 0 ≤ v < 2 ^ 16.

Definition wellTyped (i : instruction) : Prop :=
  match i with
  | AIns a => isUint16 (Value a)
  | _ => True
  end.

(** The mnemonics of a C-instruction are all in their tables. *)
Definition encodable (i : instruction) : Prop :=
  match i with
  | CIns c => ∃ code, codeCInstruction c = inl code
  | _ => True
  end.

(** The 16-bit unsigned binary representation of [v]: the bits 15 down to
    0 as the characters 0 and 1. *)
Definition bitChar (v : Z) (i : Z) : ascii :=
  if Z.testbit v i then "1"%char else "0"%char.

Definition binary16 (v : Z) : string :=
  string_of_list_ascii (map (λ i, bitChar v (15 - Z.of_nat i)) (seq 0 16)).

(** The top bit, the first character of an output line. *)
Definition topBit (line : string) : option ascii := String.get 0 line.

(** An unsigned decimal numeral and its value. *)
Definition isDecimalDigit (c : ascii) : bool := within 0x30 0x39 (byte c).

Fixpoint decimalFrom (s : string) (n : Z) : option Z :=
  match s with
  | EmptyString => Some n
  | String c s' =>
    if isDecimalDigit c then decimalFrom s' (10 * n + (byte c - 0x30))
    else None
  end.

Definition decimal (t : string) : option Z :=
  match t with
  | EmptyString => None
  | _ => decimalFrom t 0
  end.

(** ** Programs *)

(** A text of the given lines, each ended by a line feed. *)
Definition unlines (ls : list string) : string :=
  foldr (λ l s, l +:+ nl +:+ s) "" ls.

(** The program Add of the test suite, without its comments. *)
Definition prog_Add : string :=
  "@2" +:+ nl +:+ "D=A" +:+ nl +:+ "@3" +:+ nl +:+ "D=D+A" +:+ nl
  +:+ "@0" +:+ nl +:+ "M=D".

Definition out_Add : string :=
  unlines ["0000000000000010"; "1110110000010000"; "0000000000000011";
           "1110000010010000"; "0000000000000000"; "1110001100001000"].

(** The test LabelUseBeforeDeclaration of TestCode. *)
Definition prog_LabelUse : list instruction :=
  [AIns (mkA "OUTPUT" true 0); AIns (mkA "R15" true 0);
   Lbl (mkLabel "OUTPUT"); CIns (mkC "D" "A" "")].

(** Two variables, the first used twice, around a label. *)
Definition prog_Counter : list instruction :=
  [AIns (mkA "i" true 0); CIns (mkC "M" "1" ""); Lbl (mkLabel "LOOP");
   AIns (mkA "sum" true 0); CIns (mkC "M" "0" ""); AIns (mkA "i" true 0);
   CIns (mkC "D" "M" ""); AIns (mkA "LOOP" true 0); CIns (mkC "" "D" "JGT")].

(** [n] copies of D=A. *)
Definition copies (n : positive) : list instruction :=
  Pos.iter (cons (CIns (mkC "D" "A" ""))) [] n.

(** 32768 instructions, then a label and a reference to it. *)
Definition prog_Long : list instruction :=
  copies 32768 ++ [Lbl (mkLabel "END"); AIns (mkA "END" true 0)].

(** 65536 instructions, then a label. *)
Definition prog_Wrap : list instruction :=
  copies 65536 ++ [Lbl (mkLabel "END")].

(** The variables v0, v1, v10, v11, ... numbered in binary: [count]
    instructions [@v<i>] from [i] on. *)
Fixpoint variablesFrom (count : nat) (i : Z) : list instruction :=
  match count with
  | O => []
  | S k => AIns (mkA ("v" +:+ Fmt.b i) true 0) :: variablesFrom k (i + 1)
  end.

(** 65521 distinct variables, each used once. *)
Definition prog_Variables : list instruction :=
  variablesFrom (Z.to_nat 65521) 0.

(** All of them but the last. *)
Definition prog_Variables_init : list instruction :=
  take (Z.to_nat 65520) prog_Variables.

(** A source whose second instruction has an unknown mnemonic. *)
Definition prog_Unknown : list instruction :=
  [AIns (mkA "2" false 2); CIns (mkC "" "FOO" "")].

(** A reserved literal declared twice, and a label declared twice. *)
Definition prog_R0_twice : list instruction :=
  [Lbl (mkLabel "R0"); Lbl (mkLabel "R0")].

Definition prog_LOOP_twice : list instruction :=
  [Lbl (mkLabel "LOOP"); CIns (mkC "D" "A" ""); Lbl (mkLabel "LOOP")].

(** The range tables cut down to Latin-1, enough to run the assembler on
    ASCII sources. *)
Definition Latin1 : Unicode.RangeTables :=
  {| Unicode.Letter := λ _, false; Unicode.Digit := λ _, false |}.

(** ** Notions for the further properties *)

(** The characters of a string are all 0 or 1. *)
Definition isBinary (s : string) : bool :=
  forallb (λ c, Ascii.eqb c "0" || Ascii.eqb c "1") (list_ascii_of_string s).

(** The byte [c] occurs in [s]. *)
Definition occurs (c : ascii) (s : string) : bool :=
  existsb (Ascii.eqb c) (list_ascii_of_string s).

(** The ASCII characters of a symbol: letters, digits, underscore, dot,
    dollar sign and colon. *)
Definition asciiSymbol (c : ascii) : bool :=
  let b := byte c in
  within 0x41 0x5A b || within 0x61 0x7A b || within 0x30 0x39 b
  || (b =? 0x5F) || (b =? 0x2E) || (b =? 0x24) || (b =? 0x3A).

(** The bytes of a string are all ASCII. *)
Definition isASCII (s : string) : bool :=
  forallb (λ c, byte c <? Utf8.RuneSelf) (list_ascii_of_string s).

(** The ASCII white space: tab, line feed, vertical tab, form feed,
    carriage return and space. *)
Definition asciiSpace (c : ascii) : bool :=
  within 0x09 0x0D (byte c) || (byte c =? 0x20).

Definition isBlank (s : string) : bool :=
  forallb asciiSpace (list_ascii_of_string s).

(** A text without white space at either end, as far as ASCII goes: it is
    empty, or its first and its last byte are ASCII and no white space. *)
Definition solid (c : ascii) : bool :=
  (byte c <? Utf8.RuneSelf) && negb (asciiSpace c).

Definition untrimmable (s : string) : Prop :=
  s = "" ∨ ∃ c d, Str.first s = Some c ∧ Str.last s = Some d
                  ∧ solid c = true ∧ solid d = true.

(** The text behind leading white space: nothing, or a text that starts
    with an ASCII byte other than white space. *)
Definition solidStart (s : string) : Prop :=
  s = "" ∨ ∃ c s', s = String c s' ∧ solid c = true.

(** Every byte of [s] passes the test [f]. *)
Definition every (f : ascii → bool) (s : string) : bool :=
  forallb f (list_ascii_of_string s).

(** The bytes a line of a C-instruction is made of: ASCII, no white space,
    no slash, and neither of the bytes that open another kind of line. *)
Definition lineChar (c : ascii) : bool :=
  solid c && negb (Strings.inCutset "/@(" c).

(** The bytes its fields are made of: not the separators either. *)
Definition fieldChar (c : ascii) : bool :=
  lineChar c && negb (Strings.inCutset "=;" c).

(** A mnemonic: one to three field bytes. *)
Definition isMnemonic (s : string) : bool :=
  every fieldChar s && (0 <? len s) && (len s <? 4).

(** The carriage return. *)
Definition CR : ascii := "013"%char.

(** The line [x] holds the text [l] between white space, with or without
    a comment behind it. *)
Definition laidOut (l x : string) : Prop :=
  ∃ ws1 ws2 tail,
    isBlank ws1 = true ∧ isBlank ws2 = true
    ∧ (tail = "" ∨ ∃ comment, tail = "//" +:+ comment)
    ∧ x = ws1 +:+ l +:+ ws2 +:+ tail.

(** The command [parse] sees in a line of text. *)
Definition commandOf (text : string) : string :=
  Strings.TrimSpace (Strings.Cut text "//").1.1.

(** What the parser guarantees of an instruction it returns. *)
Definition fromParser `{Unicode.RangeTables} (i : instruction) : Prop :=
  match i with
  | AIns a =>
    Literal a ≠ ""
    ∧ if IsSymbol a
      then Value a = 0
           ∧ isDecimalDigit (head (Literal a)) = false
           ∧ containsOnly (Literal a) validSymbolChars = true
      else isDecimalDigit (head (Literal a)) = true
           ∧ decimal (Literal a) = Some (Value a) ∧ 0 ≤ Value a ≤ 32767
  | CIns c => True
  | Lbl l => containsOnly (labelLiteral l) validSymbolChars = true
  end.

(** The source text of a C-instruction with the given fields: dest= is
    left out for an empty dest, and ;jump for an empty jump. *)
Definition textOf (c : cInstruction) : string :=
  (if decide (Dest c = "") then "" else Dest c +:+ "=")
  +:+ Comp c
  +:+ (if decide (Jump c = "") then "" else ";" +:+ Jump c).

(** The [count] integers from [i] on pass the test [f]. *)
Fixpoint allFrom (count : nat) (i : Z) (f : Z → bool) : bool :=
  match count with
  | O => true
  | S k => f i && allFrom k (i + 1) f
  end.

(** * Properties *)

Lemma prog_Variables_eq : prog_Variables = variablesFrom (Z.to_nat 65521) 0.
Proof. reflexivity. Qed.

(** The tables and the longest program are not to be unfolded by the
    tactics. *)
Opaque predefinedSymbols compToA compToC destToD jumpToJ prog_Variables.

#[local] Set Warnings "-clear-no-such-hyp".

(** ** Strings *)

Lemma str_app_cons (c : ascii) (s t : string) :
  String c s +:+ t = String c (s +:+ t).
Proof. reflexivity. Qed.

Lemma str_length_app (s t : string) :
  String.length (s +:+ t) = (String.length s + String.length t)%nat.
Proof.
  induction s as [|c s IH]; [done|].
  rewrite str_app_cons. simpl. by rewrite IH.
Qed.

Lemma len_app (s t : string) : len (s +:+ t) = len s + len t.
Proof. unfold len. rewrite str_length_app. lia. Qed.

Lemma str_app_assoc (s t u : string) : (s +:+ t) +:+ u = s +:+ t +:+ u.
Proof.
  induction s as [|c s IH]; [done|].
  rewrite !str_app_cons. by rewrite IH.
Qed.

Lemma str_app_empty_r (s : string) : s +:+ "" = s.
Proof.
  induction s as [|c s IH]; [done|].
  rewrite str_app_cons. by rewrite IH.
Qed.

Lemma len_nonneg (s : string) : 0 ≤ len s.
Proof. unfold len. lia. Qed.

(** ** The verb %016b *)

Lemma allFrom_spec (count : nat) (i : Z) (f : Z → bool) :
  allFrom count i f = true → ∀ v, i ≤ v < i + Z.of_nat count → f v = true.
Proof.
  revert i. induction count as [|k IH]; simpl; intros i Hall v Hv; [lia|].
  apply andb_prop in Hall as [Hi Hall].
  destruct (decide (v = i)) as [->|Hne]; [done|].
  apply (IH (i + 1)); [done | lia].
Qed.

(** On a [uint16], [%016b] prints the 16-bit binary representation. *)
Lemma b016_binary16 (v : Z) : isUint16 v → Fmt.b016 v = binary16 v.
Proof.
  intros Hv.
  assert (Hall : allFrom (Z.to_nat (2 ^ 16)) 0
            (λ v, String.eqb (Fmt.b016 v) (binary16 v)) = true)
    by (vm_compute; reflexivity).
  apply String.eqb_eq.
  apply (allFrom_spec _ _ _ Hall). unfold isUint16 in Hv. lia.
Qed.

Lemma binary16_length (v : Z) : String.length (binary16 v) = 16%nat.
Proof. reflexivity. Qed.

Lemma binary16_topBit (v : Z) : topBit (binary16 v) = Some (bitChar v 15).
Proof. reflexivity. Qed.

Lemma bitChar_15 (v : Z) :
  isUint16 v → (bitChar v 15 = "0"%char ↔ v ≤ 32767).
Proof.
  intros [H0 H1]. unfold bitChar.
  destruct (Z.testbit v 15) eqn:Hb.
  - split; [discriminate|]. intros Hle.
    apply Z.testbit_true in Hb; [|lia].
    rewrite Z.div_small in Hb by lia. discriminate.
  - split; [|done]. intros _.
    apply Z.testbit_false in Hb; [|lia].
    assert (v / 2 ^ 15 < 2) by (apply Z.div_lt_upper_bound; lia).
    assert (0 ≤ v / 2 ^ 15) by (apply Z.div_pos; lia).
    assert (Hq : v / 2 ^ 15 = 0).
    { destruct (decide (v / 2 ^ 15 = 0)) as [|Hne]; [done|].
      replace (v / 2 ^ 15) with 1 in Hb by lia. discriminate. }
    apply Z.div_small_iff in Hq; lia.
Qed.

Lemma b016_length (v : Z) :
  isUint16 v → String.length (Fmt.b016 v) = 16%nat.
Proof. intros Hv. by rewrite b016_binary16. Qed.

Lemma uint16_isUint16 (v : Z) : isUint16 (uint16 v).
Proof. unfold isUint16, uint16. apply Z.mod_pos_bound. lia. Qed.

Lemma uint16_id (v : Z) : isUint16 v → uint16 v = v.
Proof. unfold isUint16, uint16. intros. by apply Z.mod_small. Qed.

(** ** Counting and collecting over a program *)

Lemma pcOf_app (pre post : list instruction) :
  pcOf (pre ++ post) = pcOf pre + pcOf post.
Proof.
  induction pre as [|[a|c|l] pre IH]; simpl; rewrite ?IH; lia.
Qed.

Lemma pcOf_nonneg (instructions : list instruction) : 0 ≤ pcOf instructions.
Proof. induction instructions as [|[a|c|l] rest IH]; simpl; lia. Qed.

Lemma labelsOf_app (pre post : list instruction) :
  labelsOf (pre ++ post) = labelsOf pre ++ labelsOf post.
Proof.
  induction pre as [|[a|c|l] pre IH]; simpl; rewrite ?IH; done.
Qed.

Lemma symbolsOf_app (pre post : list instruction) :
  symbolsOf (pre ++ post) = symbolsOf pre ++ symbolsOf post.
Proof.
  induction pre as [|[a|c|l] pre IH]; simpl; rewrite ?IH; try done.
  destruct (IsSymbol a); simpl; by rewrite ?IH.
Qed.

Lemma labelsOf_elem (pre post : list instruction) (l : label) :
  labelLiteral l ∈ labelsOf (pre ++ Lbl l :: post).
Proof. rewrite labelsOf_app. simpl. set_solver. Qed.

Lemma uint16_add_l (a b : Z) : uint16 (uint16 a + b) = uint16 (a + b).
Proof. unfold uint16. by rewrite Z.add_mod_idemp_l. Qed.

(** ** The first loop: label declarations *)

(** The step of [declare] on a label that is neither declared nor
    reserved, and on any other instruction. *)
Lemma declare_label (v : label) (rest : list instruction)
    (t : gmap string Z) (pc : Z) :
  t !! labelLiteral v = None → ¬ reserved (labelLiteral v) →
  declare (Lbl v :: rest) t pc = declare rest (<[labelLiteral v := pc]> t) pc.
Proof.
  intros Hfree Hres. simpl.
  destruct (decide (is_Some (t !! labelLiteral v))) as [[x Hx]|_]; [congruence|].
  destruct (decide (is_Some (predefinedSymbols !! labelLiteral v))); done.
Qed.

(** A pass that succeeds met no label twice and no reserved literal; it
    binds every label to the program counter at its declaration and leaves
    the other entries alone. *)
Lemma declare_inl (instructions : list instruction) :
  ∀ (t : gmap string Z) (pc : Z) (t' : gmap string Z),
  isUint16 pc → declare instructions t pc = inl t' →
  NoDup (labelsOf instructions)
  ∧ (∀ x, x ∈ labelsOf instructions → t !! x = None ∧ ¬ reserved x)
  ∧ (∀ x, x ∉ labelsOf instructions → t' !! x = t !! x)
  ∧ (∀ pre l post, instructions = pre ++ Lbl l :: post →
       t' !! labelLiteral l = Some (uint16 (pc + pcOf pre))).
Proof.
  induction instructions as [|i rest IH]; intros t pc t' Hpc Hrun.
  { simpl in Hrun. injection Hrun as <-.
    split_and!; [constructor | set_solver.. | ].
    intros [|??] ???; discriminate. }
  destruct i as [a|c|v].
  3: {
    simpl in Hrun.
    destruct (decide (is_Some (t !! labelLiteral v))) as [|Hfree]; [done|].
    destruct (decide (is_Some (predefinedSymbols !! labelLiteral v)))
      as [|Hres]; [done|].
    apply eq_None_not_Some in Hfree.
    destruct (IH _ _ _ Hpc Hrun) as (Hnd & Hnew & Hkeep & Hbind).
    assert (Hv : labelLiteral v ∉ labelsOf rest).
    { intros Hin. destruct (Hnew _ Hin) as [Hnone _].
      by rewrite lookup_insert_eq in Hnone. }
    simpl. split_and!.
    - by constructor.
    - intros x Hx. apply elem_of_cons in Hx as [->|Hin]; [done|].
      destruct (Hnew _ Hin) as [Hnone Hnres]. split; [|done].
      destruct (decide (labelLiteral v = x)) as [Heq|Hne].
      + by rewrite Heq, lookup_insert_eq in Hnone.
      + by rewrite lookup_insert_ne in Hnone.
    - intros x Hx. apply not_elem_of_cons in Hx as [Hne Hx].
      rewrite (Hkeep _ Hx). by rewrite lookup_insert_ne.
    - intros [|j pre] l post Heq; simpl in Heq.
      + injection Heq as <-. rewrite (Hkeep _ Hv), lookup_insert_eq.
        simpl. rewrite Z.add_0_r. by rewrite uint16_id.
      + injection Heq as <- ->. simpl. apply (Hbind pre l post eq_refl). }
  all: simpl in Hrun;
    destruct (IH _ _ _ (uint16_isUint16 _) Hrun) as (Hnd & Hnew & Hkeep & Hbind);
    simpl; split_and!; try done;
    intros [|j pre] l post Heq; simpl in Heq; [discriminate|];
    injection Heq as <- ->;
    rewrite (Hbind _ _ _ eq_refl), uint16_add_l; simpl; do 2 f_equal; lia.
Qed.

(** The pass succeeds when no label is declared twice, bound already or
    reserved. *)
Lemma declare_ok (instructions : list instruction) :
  ∀ (t : gmap string Z) (pc : Z),
  NoDup (labelsOf instructions) →
  (∀ x, x ∈ labelsOf instructions → t !! x = None ∧ ¬ reserved x) →
  ∃ t', declare instructions t pc = inl t'.
Proof.
  induction instructions as [|[a|c|v] rest IH]; intros t pc Hnd Hnew;
    simpl in Hnd, Hnew; [by eexists | by apply IH.. | ].
  apply NoDup_cons in Hnd as [Hv Hnd].
  assert (Hhere : t !! labelLiteral v = None ∧ ¬ reserved (labelLiteral v))
    by (apply Hnew, elem_of_cons; by left).
  destruct Hhere as [Hfree Hres].
  rewrite declare_label by done. apply IH; [done|].
  intros x Hx.
  assert (Hthere : t !! x = None ∧ ¬ reserved x)
    by (apply Hnew, elem_of_cons; by right).
  destruct Hthere as [Hnone Hnres].
  split; [|done]. rewrite lookup_insert_ne; [done|]. by intros <-.
Qed.

(** A pass that fails stopped at a label that was declared before (or was
    bound already), or at a reserved one. *)
Lemma declare_inr (instructions : list instruction) :
  ∀ (t : gmap string Z) (pc : Z) (e : error),
  declare instructions t pc = inr e →
  (∃ x, e = errRedeclared x ∧ x ∈ labelsOf instructions
        ∧ (is_Some (t !! x) ∨ ¬ NoDup (labelsOf instructions)))
  ∨ (∃ x, e = errPredefined x ∧ x ∈ labelsOf instructions ∧ reserved x).
Proof.
  induction instructions as [|[a|c|v] rest IH]; intros t pc e Hrun;
    simpl in Hrun; [done | by apply IH in Hrun.. | ].
  destruct (decide (is_Some (t !! labelLiteral v))) as [Hbound|Hfree].
  { injection Hrun as <-. left. exists (labelLiteral v). simpl.
    split_and!; [done | apply elem_of_cons; by left | by left]. }
  destruct (decide (is_Some (predefinedSymbols !! labelLiteral v)))
    as [Hres|Hnres].
  { injection Hrun as <-. right. exists (labelLiteral v). simpl.
    split_and!; [done | apply elem_of_cons; by left | done]. }
  apply IH in Hrun as [(x & -> & Hx & Hwhy)|(x & -> & Hx & Hres)]; simpl.
  - left. exists x. split_and!; [done | apply elem_of_cons; by right | ].
    destruct Hwhy as [Hbound|Hdup].
    + destruct (decide (x = labelLiteral v)) as [->|Hne].
      * right. rewrite NoDup_cons. tauto.
      * left. by rewrite lookup_insert_ne in Hbound.
    + right. rewrite NoDup_cons. tauto.
  - right. exists x. split_and!; [done | apply elem_of_cons; by right | done].
Qed.

Lemma declared_dom (instructions : list instruction) :
  ∀ (t : gmap string Z) (pc : Z) (t' : gmap string Z),
  declare instructions t pc = inl t' →
  dom t' = dom t ∪ list_to_set (labelsOf instructions).
Proof.
  induction instructions as [|[a|c|v] rest IH]; intros t pc t' Hrun;
    simpl in Hrun.
  - injection Hrun as <-. simpl. by rewrite (right_id_L ∅ (∪)).
  - by apply IH in Hrun.
  - by apply IH in Hrun.
  - destruct (decide _); [done|]. destruct (decide _); [done|].
    apply IH in Hrun. rewrite Hrun, dom_insert_L. simpl.
    by rewrite (assoc_L (∪)), (comm_L (∪) {[labelLiteral v]}).
Qed.

(** The first loop over a program in two parts: the second part starts from
    the table the first part leaves. *)
Lemma declare_app (pre post : list instruction) :
  ∀ (t : gmap string Z) (pc : Z) (t' : gmap string Z),
  declare pre t pc = inl t' →
  ∃ pc', declare (pre ++ post) t pc = declare post t' pc'.
Proof.
  induction pre as [|[a|c|v] pre IH]; intros t pc t' Hrun; simpl in Hrun |- *.
  - injection Hrun as <-. by exists pc.
  - by apply IH.
  - by apply IH.
  - destruct (decide _); [done|]. destruct (decide _); [done|]. by apply IH.
Qed.

(** A pass that fails went through the declarations before the one it
    stopped at. *)
Lemma declare_stops (instructions : list instruction) :
  ∀ (t : gmap string Z) (pc : Z) (e : error),
  declare instructions t pc = inr e →
  ∃ pre l post t',
    instructions = pre ++ Lbl l :: post
    ∧ declare pre t pc = inl t'
    ∧ ((is_Some (t' !! labelLiteral l) ∧ e = errRedeclared (labelLiteral l))
       ∨ (t' !! labelLiteral l = None ∧ reserved (labelLiteral l)
          ∧ e = errPredefined (labelLiteral l))).
Proof.
  induction instructions as [|[a|c|v] rest IH]; intros t pc e Hrun;
    simpl in Hrun; [done | | | ].
  - apply IH in Hrun as (pre & l & post & t' & -> & Hpre & Hwhy).
    by exists (AIns a :: pre), l, post, t'.
  - apply IH in Hrun as (pre & l & post & t' & -> & Hpre & Hwhy).
    by exists (CIns c :: pre), l, post, t'.
  - destruct (decide (is_Some (t !! labelLiteral v))) as [Hbound|Hfree].
    { injection Hrun as <-. exists [], v, rest, t. split_and!; try done.
      by left. }
    apply eq_None_not_Some in Hfree.
    destruct (decide (is_Some (predefinedSymbols !! labelLiteral v)))
      as [Hres|Hnres].
    { injection Hrun as <-. exists [], v, rest, t. split_and!; try done.
      by right. }
    apply IH in Hrun as (pre & l & post & t' & -> & Hpre & Hwhy).
    exists (Lbl v :: pre), l, post, t'. split_and!; try done.
    simpl app. by rewrite declare_label.
Qed.

(** ** The second loop: the predefined symbols *)

Lemma predefine_cons (k : string) (v : Z) (order : list (string * Z))
    (t : gmap string Z) :
  predefine ((k, v) :: order) t = predefine order (<[k := v]> t).
Proof. reflexivity. Qed.

Lemma predefine_list (order : list (string * Z)) :
  ∀ t : gmap string Z,
  NoDup order.*1 → predefine order t = list_to_map order ∪ t.
Proof.
  induction order as [|[k v] order IH]; intros t Hnd.
  - unfold predefine. simpl. by rewrite (left_id_L ∅ (∪)).
  - rewrite fmap_cons in Hnd. apply NoDup_cons in Hnd as [Hk Hnd].
    rewrite predefine_cons, IH by done. simpl.
    rewrite <- insert_union_r by by apply not_elem_of_list_to_map_1.
    by rewrite insert_union_l.
Qed.

(** Whatever the order of the range loop, the predefined symbols are laid
    over the labels. *)
Lemma predefine_union (order : list (string * Z)) (t : gmap string Z) :
  order ≡ₚ map_to_list predefinedSymbols →
  predefine order t = predefinedSymbols ∪ t.
Proof.
  intros Hperm.
  assert (Hnd : NoDup order.*1).
  { rewrite Hperm. apply NoDup_fst_map_to_list. }
  rewrite predefine_list by done.
  by rewrite (list_to_map_proper _ _ Hnd Hperm), list_to_map_to_list.
Qed.

Lemma predefinedSymbols_uint16 :
  map_Forall (λ _ v, isUint16 v) predefinedSymbols.
Proof.
  apply map_Forall_to_list.
  assert (Hlist : Forall (λ kv, 0 ≤ kv.2 < 2 ^ 16)
            (map_to_list predefinedSymbols))
    by (apply (bool_decide_unpack _); vm_compute; exact I).
  eapply Forall_impl; [exact Hlist|]. by intros [k v].
Qed.

(** ** Resolution of one A-instruction *)

Lemma resolve_constant (a : aInstruction) (t : gmap string Z) (n : Z) :
  IsSymbol a = false → resolve a t n = (a, t, n).
Proof. unfold resolve. by intros ->. Qed.

Lemma resolve_bound (a : aInstruction) (t : gmap string Z) (n v : Z) :
  IsSymbol a = true → t !! Literal a = Some v →
  resolve a t n = (mkA "" false v, t, n).
Proof. unfold resolve. by intros -> ->. Qed.

Lemma resolve_free (a : aInstruction) (t : gmap string Z) (n : Z) :
  IsSymbol a = true → t !! Literal a = None →
  resolve a t n = (mkA "" false n, <[Literal a := n]> t, uint16 (n + 1)).
Proof. unfold resolve. by intros -> ->. Qed.

(** The cases of [resolve], for a proof by cases. *)
Lemma resolve_cases (a : aInstruction) (t : gmap string Z) (n : Z) :
  (IsSymbol a = false ∧ resolve a t n = (a, t, n))
  ∨ (∃ v, IsSymbol a = true ∧ t !! Literal a = Some v
          ∧ resolve a t n = (mkA "" false v, t, n))
  ∨ (IsSymbol a = true ∧ t !! Literal a = None
     ∧ resolve a t n
       = (mkA "" false n, <[Literal a := n]> t, uint16 (n + 1))).
Proof.
  destruct (IsSymbol a) eqn:Hs.
  - destruct (t !! Literal a) as [v|] eqn:Ht.
    + right. left. exists v. by rewrite (resolve_bound _ _ _ v).
    + right. right. by rewrite resolve_free.
  - left. by rewrite resolve_constant.
Qed.

Ltac resolve_cases a t n :=
  let v := fresh "v" in
  let Hs := fresh "Hs" in
  let Ht := fresh "Ht" in
  let Hr := fresh "Hr" in
  destruct (resolve_cases a t n)
    as [(Hs & Hr)|[(v & Hs & Ht & Hr)|(Hs & Ht & Hr)]].

(** An entry of the symbol table is never overwritten. *)
Lemma resolve_keeps (a : aInstruction) (t : gmap string Z) (n : Z)
    (k : string) (v : Z) :
  t !! k = Some v → (resolve a t n).1.2 !! k = Some v.
Proof.
  intros Hk. resolve_cases a t n; rewrite Hr; simpl; try done.
  rewrite lookup_insert_ne; [done|]. intros Heq. congruence.
Qed.

(** A symbolic A-instruction leaves its literal bound to the value it is
    encoded with. *)
Lemma resolve_binds (a : aInstruction) (t : gmap string Z) (n : Z) :
  IsSymbol a = true →
  (resolve a t n).1.2 !! Literal a = Some (Value (resolve a t n).1.1).
Proof.
  intros Hsym. resolve_cases a t n; rewrite Hr; simpl.
  - congruence.
  - done.
  - by rewrite lookup_insert_eq.
Qed.

Lemma resolve_state_uint16 (a : aInstruction) (t : gmap string Z) (n : Z) :
  map_Forall (λ _ v, isUint16 v) t → isUint16 n →
  map_Forall (λ _ v, isUint16 v) (resolve a t n).1.2
  ∧ isUint16 (resolve a t n).2.
Proof.
  intros Ht0 Hn. resolve_cases a t n; rewrite Hr; simpl; try done.
  split; [by apply map_Forall_insert_2 | apply uint16_isUint16].
Qed.

Lemma resolve_value_uint16 (a : aInstruction) (t : gmap string Z) (n : Z) :
  map_Forall (λ _ v, isUint16 v) t → isUint16 n →
  (IsSymbol a = false → isUint16 (Value a)) →
  isUint16 (Value (resolve a t n).1.1).
Proof.
  intros Ht0 Hn Ha. resolve_cases a t n; rewrite Hr; simpl.
  - by apply Ha.
  - by apply (Ht0 _ _ Ht).
  - done.
Qed.

(** ** The symbol table along the third loop *)

Lemma resolved_A (a : aInstruction) (rest : list instruction)
    (t : gmap string Z) (n : Z) :
  resolved (AIns a :: rest) t n
  = resolved rest (resolve a t n).1.2 (resolve a t n).2.
Proof. simpl. by destruct (resolve a t n) as [[a' t'] n']. Qed.

Lemma resolved_app (pre post : list instruction) :
  ∀ (t : gmap string Z) (n : Z),
  resolved (pre ++ post) t n
  = resolved post (resolved pre t n).1 (resolved pre t n).2.
Proof.
  induction pre as [|[a|c|l] pre IH]; intros t n; simpl app;
    [done | | by apply IH..].
  by rewrite !resolved_A, IH.
Qed.

Lemma resolved_keeps (instructions : list instruction) :
  ∀ (t : gmap string Z) (n : Z) (k : string) (v : Z),
  t !! k = Some v → (resolved instructions t n).1 !! k = Some v.
Proof.
  induction instructions as [|[a|c|l] rest IH]; intros t n k v Hk;
    [done | | by apply IH..].
  rewrite resolved_A. by apply IH, resolve_keeps.
Qed.

Lemma resolved_uint16 (instructions : list instruction) :
  ∀ (t : gmap string Z) (n : Z),
  map_Forall (λ _ v, isUint16 v) t → isUint16 n →
  map_Forall (λ _ v, isUint16 v) (resolved instructions t n).1
  ∧ isUint16 (resolved instructions t n).2.
Proof.
  induction instructions as [|[a|c|l] rest IH]; intros t n Ht Hn;
    [done | | by apply IH..].
  rewrite resolved_A.
  destruct (resolve_state_uint16 a t n Ht Hn) as [Ht' Hn'].
  by apply IH.
Qed.

Lemma symbol_bound (x : string) (D S : gset string) :
  x ∈ D → D ∪ ({[x]} ∪ S) = D ∪ S ∧ ({[x]} ∪ S) ∖ D = S ∖ D.
Proof. set_solver. Qed.

Lemma symbol_free (x : string) (D S : gset string) :
  x ∉ D →
  ({[x]} ∪ D) ∪ S = D ∪ ({[x]} ∪ S)
  ∧ size (({[x]} ∪ S) ∖ D) = Datatypes.S (size (S ∖ ({[x]} ∪ D))).
Proof.
  intros Hx. split; [set_solver|].
  replace (({[x]} ∪ S) ∖ D) with ({[x]} ∪ S ∖ ({[x]} ∪ D)).
  - rewrite size_union by set_solver. by rewrite size_singleton.
  - apply set_eq. intros y. destruct (decide (y = x)); set_solver.
Qed.

(** The table gains the symbolic literals met, and the next variable
    address advances by the number of those that were new. *)
Lemma resolved_state (instructions : list instruction) :
  ∀ (t : gmap string Z) (n : Z), isUint16 n →
  dom (resolved instructions t n).1
    = dom t ∪ list_to_set (symbolsOf instructions)
  ∧ (resolved instructions t n).2
    = uint16 (n + Z.of_nat
                (size (list_to_set (symbolsOf instructions) ∖ dom t
                         : gset string))).
Proof.
  induction instructions as [|[a|c|l] rest IH]; intros t n Hn;
    [ | | by apply IH..].
  - simpl. rewrite (right_id_L ∅ (∪)).
    replace (∅ ∖ dom t : gset string) with (∅ : gset string) by set_solver.
    rewrite size_empty, Z.add_0_r. by rewrite uint16_id.
  - rewrite resolved_A.
    resolve_cases a t n; rewrite Hr; simpl; rewrite Hs.
    + by apply IH.
    + destruct (IH t n Hn) as [Hdom Hnext]. rewrite Hdom, Hnext.
      assert (Hin : Literal a ∈ dom t) by (apply elem_of_dom; eauto).
      rewrite list_to_set_cons.
      destruct (symbol_bound _ _ (list_to_set (symbolsOf rest)) Hin)
        as [-> ->].
      done.
    + destruct (IH (<[Literal a := n]> t) (uint16 (n + 1)) (uint16_isUint16 _))
        as [Hdom Hnext].
      rewrite Hdom, Hnext, dom_insert_L.
      assert (Hout : Literal a ∉ dom t) by by apply not_elem_of_dom.
      rewrite list_to_set_cons.
      destruct (symbol_free _ _ (list_to_set (symbolsOf rest)) Hout)
        as [-> ->].
      split; [done|]. rewrite uint16_add_l. f_equal. lia.
Qed.

(** ** The encoder of C-instructions *)

Lemma table_lengths (table : gmap string string) (n : nat) :
  Forall (λ kv, String.length kv.2 = n) (map_to_list table) →
  ∀ k v, table !! k = Some v → String.length v = n.
Proof.
  intros Hall k v Hk. apply elem_of_map_to_list in Hk.
  rewrite Forall_forall in Hall. by apply (Hall (k, v)).
Qed.

Ltac by_table H :=
  eapply table_lengths; [|exact H];
  apply (bool_decide_unpack _); vm_compute; exact I.

(** An encoded C-instruction is 16 characters long. *)
Lemma codeCInstruction_length (c : cInstruction) (code : string) :
  codeCInstruction c = inl code → String.length code = 16%nat.
Proof.
  unfold codeCInstruction.
  destruct (compToA !! Comp c) as [aBit|] eqn:Ha; [|done].
  destruct (compToC !! Comp c) as [cBits|] eqn:Hc; [|done].
  assert (Hd : ∀ dBits,
    (if decide (Dest c = "") then Some "000" else destToD !! Dest c)
    = Some dBits → String.length dBits = 3%nat).
  { intros dBits. destruct (decide (Dest c = "")) as [|Hne].
    - intros Heq. by injection Heq as <-.
    - intros Hd. by_table Hd. }
  assert (Hj : ∀ jBits,
    (if decide (Jump c = "") then Some "000" else jumpToJ !! Jump c)
    = Some jBits → String.length jBits = 3%nat).
  { intros jBits. destruct (decide (Jump c = "")) as [|Hne].
    - intros Heq. by injection Heq as <-.
    - intros Hj. by_table Hj. }
  destruct (if decide (Dest c = "") then _ else _) as [dBits|]; [|done].
  destruct (if decide (Jump c = "") then _ else _) as [jBits|]; [|done].
  intros [= <-]. rewrite !str_length_app.
  rewrite (Hd _ eq_refl), (Hj _ eq_refl).
  assert (String.length aBit = 1%nat) as -> by by_table Ha.
  assert (String.length cBits = 6%nat) as -> by by_table Hc.
  reflexivity.
Qed.

(** ** The third loop, on any sink *)

Section Emit.

Context `{Writer W}.

Lemma emit_A (a : aInstruction) (rest : list instruction)
    (t : gmap string Z) (n : Z) (w : W) :
  emit (AIns a :: rest) t n w
  = let r := resolve a t n in
    let out := Write w (Fmt.b016 (Value r.1.1) +:+ nl) in
    if negb (out.2.1 =? 17) then (out.1, Some (errShortWriteA a out.2.1))
    else match out.2.2 with
         | Some err => (out.1, Some (errWriteA a err))
         | None => emit rest r.1.2 r.2 out.1
         end.
Proof.
  simpl. destruct (resolve a t n) as [[a' t'] n']. simpl.
  unfold Fprintf, codeAInstruction.
  by destruct (Write w _) as [w' [k err]].
Qed.

Lemma emit_C (c : cInstruction) (rest : list instruction)
    (t : gmap string Z) (n : Z) (w : W) :
  emit (CIns c :: rest) t n w
  = match codeCInstruction c with
    | inr err => (w, Some (errEncodeC c err))
    | inl code =>
      let out := Write w (code +:+ nl) in
      if negb (out.2.1 =? 17) then (out.1, Some (errShortWriteC c out.2.1))
      else match out.2.2 with
           | Some err => (out.1, Some (errWriteC c err))
           | None => emit rest t n out.1
           end
    end.
Proof.
  simpl. destruct (codeCInstruction c) as [code|err]; [|done].
  unfold Fprintf. by destruct (Write w _) as [w' [k err]].
Qed.

(** The loop over a program in two parts: the second part starts from the
    sink and the symbol table the first part leaves, if it succeeds. *)
Lemma emit_app (pre post : list instruction) :
  ∀ (t : gmap string Z) (n : Z) (w : W),
  emit (pre ++ post) t n w
  = match emit pre t n w with
    | (w1, None) => emit post (resolved pre t n).1 (resolved pre t n).2 w1
    | (w1, Some e) => (w1, Some e)
    end.
Proof.
  induction pre as [|[a|c|l] pre IH]; intros t n w; simpl app.
  - done.
  - rewrite !emit_A, resolved_A. cbv zeta.
    destruct (negb _); [done|].
    destruct (Write w _).2.2; [done|]. apply IH.
  - rewrite !emit_C. destruct (codeCInstruction c) as [code|err]; [|done].
    cbv zeta. destruct (negb _); [done|].
    destruct (Write w _).2.2; [done|]. apply IH.
  - apply IH.
Qed.

End Emit.

(** ** The third loop on a buffer *)

Lemma Buffer_Write (w : Buffer) (p : string) :
  Write w p = (w +:+ p, (len p, None)).
Proof. reflexivity. Qed.

Lemma str_app_empty_l (s : string) : "" +:+ s = s.
Proof. reflexivity. Qed.

(** What is written does not depend on what the buffer holds. *)
Lemma emit_Buffer (instructions : list instruction) :
  ∀ (t : gmap string Z) (n : Z) (w : Buffer),
  emit instructions t n w
  = (w +:+ (emit (W := Buffer) instructions t n "").1,
     (emit (W := Buffer) instructions t n "").2).
Proof.
  induction instructions as [|[a|c|l] rest IH]; intros t n w.
  - simpl. by rewrite str_app_empty_r.
  - rewrite !emit_A. cbv zeta. rewrite !Buffer_Write. simpl fst. simpl snd.
    rewrite str_app_empty_l.
    destruct (negb _); [done|].
    rewrite (IH _ _ (w +:+ _)), (IH _ _ (Fmt.b016 _ +:+ _)). simpl.
    by rewrite !str_app_assoc.
  - rewrite !emit_C. destruct (codeCInstruction c) as [code|err].
    + cbv zeta. rewrite !Buffer_Write. simpl fst. simpl snd.
      rewrite str_app_empty_l.
      destruct (negb _); [done|].
      rewrite (IH _ _ (w +:+ _)), (IH _ _ (code +:+ _)). simpl.
      by rewrite !str_app_assoc.
    + simpl. by rewrite str_app_empty_r.
  - simpl. apply IH.
Qed.

(** A run that succeeds wrote 17 bytes for every instruction but the
    labels. *)
Lemma emit_Buffer_len (instructions : list instruction) :
  ∀ (t : gmap string Z) (n : Z) (out : Buffer),
  emit (W := Buffer) instructions t n "" = (out, None) →
  len out = 17 * pcOf instructions.
Proof.
  induction instructions as [|[a|c|l] rest IH]; intros t n out Hrun.
  - simpl in Hrun. by injection Hrun as <-.
  - rewrite emit_A in Hrun. cbv zeta in Hrun.
    rewrite Buffer_Write in Hrun. simpl fst in Hrun. simpl snd in Hrun.
    rewrite str_app_empty_l in Hrun.
    revert Hrun. destruct (len _ =? 17) eqn:Hlen; simpl; intros Hrun; [|done].
    apply Z.eqb_eq in Hlen.
    rewrite emit_Buffer in Hrun.
    destruct (emit (W := Buffer) rest _ _ "") as [o r] eqn:Hrest.
    simpl in Hrun. injection Hrun as <- ->.
    rewrite len_app, Hlen, (IH _ _ _ Hrest). simpl. lia.
  - rewrite emit_C in Hrun.
    destruct (codeCInstruction c) as [code|err]; [|done].
    cbv zeta in Hrun.
    rewrite Buffer_Write in Hrun. simpl fst in Hrun. simpl snd in Hrun.
    rewrite str_app_empty_l in Hrun.
    revert Hrun. destruct (len _ =? 17) eqn:Hlen; simpl; intros Hrun; [|done].
    apply Z.eqb_eq in Hlen.
    rewrite emit_Buffer in Hrun.
    destruct (emit (W := Buffer) rest _ _ "") as [o r] eqn:Hrest.
    simpl in Hrun. injection Hrun as <- ->.
    rewrite len_app, Hlen, (IH _ _ _ Hrest). simpl. lia.
  - simpl in Hrun. simpl. by apply (IH t n).
Qed.

(** The line of an A-instruction in the output of a run that succeeds: it
    follows the lines of the instructions before it and shows the value the
    instruction resolves to. *)
Lemma emit_line (pre post : list instruction) (a : aInstruction)
    (t : gmap string Z) (n : Z) (out : Buffer) :
  emit (W := Buffer) (pre ++ AIns a :: post) t n "" = (out, None) →
  let v := Value (resolve a (resolved pre t n).1 (resolved pre t n).2).1.1 in
  ∃ before after : string,
    emit (W := Buffer) pre t n "" = (before, None)
    ∧ out = before +:+ (Fmt.b016 v +:+ nl) +:+ after
    ∧ len before = 17 * pcOf pre
    ∧ String.length (Fmt.b016 v) = 16%nat.
Proof.
  intros Hrun v. rewrite emit_app in Hrun.
  destruct (emit (W := Buffer) pre t n "") as [before [e|]] eqn:Hpre; [done|].
  rewrite emit_A in Hrun. cbv zeta in Hrun.
  rewrite Buffer_Write in Hrun. simpl fst in Hrun. simpl snd in Hrun.
  fold v in Hrun.
  revert Hrun. destruct (len _ =? 17) eqn:Hlen; simpl; intros Hrun; [|done].
  apply Z.eqb_eq in Hlen.
  rewrite emit_Buffer in Hrun.
  destruct (emit (W := Buffer) post _ _ "") as [after r] eqn:Hpost.
  simpl in Hrun. injection Hrun as <- ->.
  exists before, after. split_and!.
  - done.
  - by rewrite !str_app_assoc.
  - by apply emit_Buffer_len in Hpre.
  - unfold len in Hlen. rewrite str_length_app in Hlen. simpl in Hlen. lia.
Qed.

(** A program whose values are 16-bit and whose mnemonics are known is
    written out in full. *)
Lemma emit_Buffer_ok (instructions : list instruction) :
  ∀ (t : gmap string Z) (n : Z),
  map_Forall (λ _ v, isUint16 v) t → isUint16 n →
  Forall wellTyped instructions → Forall encodable instructions →
  ∃ out, emit (W := Buffer) instructions t n "" = (out, None).
Proof.
  induction instructions as [|i rest IH]; intros t n Ht Hn Hwt Henc;
    [by eexists|].
  apply Forall_cons in Hwt as [Hi Hwt].
  apply Forall_cons in Henc as [Hc Henc].
  destruct i as [a|c|l].
  - rewrite emit_A. cbv zeta.
    rewrite Buffer_Write. simpl fst. simpl snd.
    destruct (resolve_state_uint16 a t n Ht Hn) as [Ht' Hn'].
    pose proof (resolve_value_uint16 a t n Ht Hn (λ _, Hi)) as Hv.
    unfold len. rewrite str_length_app, b016_length by done. simpl.
    rewrite emit_Buffer.
    destruct (IH _ _ Ht' Hn' Hwt Henc) as [o ->]. by eexists.
  - rewrite emit_C. destruct Hc as [code Hcode]. rewrite Hcode. cbv zeta.
    rewrite Buffer_Write. simpl fst. simpl snd.
    unfold len. rewrite str_length_app, (codeCInstruction_length _ _ Hcode).
    simpl. rewrite emit_Buffer.
    destruct (IH _ _ Ht Hn Hwt Henc) as [o ->]. by eexists.
  - simpl. by apply IH.
Qed.

(** ** [code] as its three loops *)

Section CodeFacts.

Context `{Writer W}.

Lemma codeIn_code (order : list (string * Z))
    (instructions : list instruction) (w : W) :
  order ≡ₚ map_to_list predefinedSymbols →
  codeIn order instructions w = code instructions w.
Proof.
  intros Hperm. unfold code, codeIn.
  destruct (declare instructions ∅ 0) as [t|e]; [|done].
  by rewrite !predefine_union.
Qed.

Lemma code_declared (instructions : list instruction) (w : W)
    (t : gmap string Z) :
  declare instructions ∅ 0 = inl t →
  code instructions w = emit instructions (predefinedSymbols ∪ t) 16 w.
Proof.
  intros Ht. unfold code, codeIn. by rewrite Ht, predefine_union.
Qed.

Lemma code_undeclared (instructions : list instruction) (w : W) (e : error) :
  declare instructions ∅ 0 = inr e → code instructions w = (w, Some e).
Proof. intros He. unfold code, codeIn. by rewrite He. Qed.

End CodeFacts.

Lemma symbolTableBefore_declared (instructions : list instruction)
    (t : gmap string Z) :
  declare instructions ∅ 0 = inl t →
  symbolTableBefore instructions = Some (predefinedSymbols ∪ t).
Proof.
  intros Ht. unfold symbolTableBefore. by rewrite Ht, predefine_union.
Qed.

Lemma isUint16_0 : isUint16 0.
Proof. unfold isUint16. lia. Qed.

Lemma isUint16_16 : isUint16 16.
Proof. unfold isUint16. lia. Qed.

(** The table the third loop starts from holds 16-bit values. *)
Lemma declared_uint16 (instructions : list instruction) :
  ∀ (t : gmap string Z) (pc : Z) (t' : gmap string Z),
  map_Forall (λ _ v, isUint16 v) t → isUint16 pc →
  declare instructions t pc = inl t' →
  map_Forall (λ _ v, isUint16 v) t'.
Proof.
  induction instructions as [|[a|c|v] rest IH]; intros t pc t' Ht Hpc Hrun;
    simpl in Hrun.
  - by injection Hrun as <-.
  - by apply (IH _ _ _ Ht (uint16_isUint16 _) Hrun).
  - by apply (IH _ _ _ Ht (uint16_isUint16 _) Hrun).
  - destruct (decide _); [done|]. destruct (decide _); [done|].
    apply (IH _ _ _ (map_Forall_insert_2 _ _ _ _ Hpc Ht) Hpc Hrun).
Qed.

Lemma before_uint16 (instructions : list instruction) (t : gmap string Z) :
  declare instructions ∅ 0 = inl t →
  map_Forall (λ _ v, isUint16 v) (predefinedSymbols ∪ t).
Proof.
  intros Ht. apply map_Forall_union_2; [apply predefinedSymbols_uint16|].
  by apply (declared_uint16 _ _ _ _ (map_Forall_empty _) isUint16_0 Ht).
Qed.

(** ** Numeric literals *)

Lemma byte_range (c : ascii) : 0 ≤ byte c < 256.
Proof.
  unfold byte. pose proof (N_ascii_bounded c) as Hc. lia.
Qed.

Lemma within_spec (lo hi b : Z) : within lo hi b = true ↔ lo ≤ b ≤ hi.
Proof. unfold within. rewrite andb_true_iff, !Z.leb_le. tauto. Qed.

Lemma IsDigit_byte `{Unicode.RangeTables} (c : ascii) :
  Unicode.IsDigit (byte c) = isDecimalDigit c.
Proof.
  unfold Unicode.IsDigit, isDecimalDigit.
  assert (Hin : within 0 Unicode.MaxLatin1 (byte c) = true).
  { apply within_spec. pose proof (byte_range c). unfold Unicode.MaxLatin1. lia. }
  by rewrite Hin.
Qed.

(** A numeral only grows with more digits. *)
Lemma decimalFrom_ge (s : string) :
  ∀ n v, 0 ≤ n → decimalFrom s n = Some v → n ≤ v.
Proof.
  induction s as [|c s IH]; intros n v Hn; simpl.
  - intros [= <-]. lia.
  - destruct (isDecimalDigit c) eqn:Hc; [|done].
    apply within_spec in Hc. intros Hv. apply IH in Hv; lia.
Qed.

Lemma digitVal_decimal (c : ascii) :
  match Strconv.digitVal (byte c) with
  | Some d =>
    if isDecimalDigit c then d = byte c - 0x30 ∧ 0 ≤ d ≤ 9 else 10 ≤ d
  | None => isDecimalDigit c = false
  end.
Proof.
  unfold Strconv.digitVal, isDecimalDigit.
  destruct (within 48 57 (byte c)) eqn:Hdigit.
  - apply within_spec in Hdigit. lia.
  - destruct (within 97 122 (Strconv.lower (byte c))) eqn:Hletter; [|done].
    apply within_spec in Hletter. lia.
Qed.

(** The digit loop of [ParseUint] in base 10 with a bound [maxVal] that
    leaves room in 64 bits: it computes the value of the numeral, and fails
    exactly when the text is no numeral or its value exceeds the bound. *)
Lemma parseDigits_decimal (cutoff maxVal : Z) (s : string) :
  0 ≤ maxVal < cutoff → 10 * maxVal + 9 < 2 ^ 64 →
  ∀ n, 0 ≤ n ≤ maxVal →
  match Strconv.parseDigits s 10 cutoff maxVal n with
  | inl v => decimalFrom s n = Some v ∧ 0 ≤ v ≤ maxVal
  | inr _ => ¬ ∃ v, decimalFrom s n = Some v ∧ v ≤ maxVal
  end.
Proof.
  intros Hmax Hroom. induction s as [|c s IH]; intros n Hn; simpl.
  - split; [done | lia].
  - pose proof (digitVal_decimal c) as Hd.
    destruct (Strconv.digitVal (byte c)) as [d|].
    2: { rewrite Hd. by intros (v & Hv & _). }
    destruct (isDecimalDigit c).
    2: { destruct (10 <=? d) eqn:Hbase; [by intros (v & Hv & _)|].
         apply Z.leb_gt in Hbase. lia. }
    destruct Hd as [-> Hd].
    destruct (10 <=? byte c - 48) eqn:Hbase; [apply Z.leb_le in Hbase; lia|].
    destruct (cutoff <=? n) eqn:Hcut; [apply Z.leb_le in Hcut; lia|].
    rewrite Z.mod_small by lia.
    destruct (n * 10 + (byte c - 48) <? n * 10) eqn:Hwrap;
      [apply Z.ltb_lt in Hwrap; lia|].
    replace (10 * n + (byte c - 48)) with (n * 10 + (byte c - 48)) by lia.
    destruct (maxVal <? n * 10 + (byte c - 48)) eqn:Hover; simpl.
    + apply Z.ltb_lt in Hover. intros (v & Hv & Hle).
      apply decimalFrom_ge in Hv; lia.
    + apply Z.ltb_ge in Hover. apply IH. lia.
Qed.

(** [ParseUint(t, 10, 15)] against the numerals of at most 15 bits. *)
Lemma ParseUint_decimal (t : string) :
  match Strconv.ParseUint t 10 15 with
  | inl v => decimal t = Some v ∧ 0 ≤ v ≤ 32767
  | inr _ => ¬ ∃ v, decimal t = Some v ∧ 0 ≤ v ≤ 32767
  end.
Proof.
  destruct t as [|c t]; [by intros (v & Hv & _)|].
  unfold Strconv.ParseUint, decimal.
  assert (Hmax : 0 ≤ 2 ^ 15 - 1 < Strconv.maxUint64 / 10 + 1)
    by (by vm_compute).
  assert (Hroom : 10 * (2 ^ 15 - 1) + 9 < 2 ^ 64) by (by vm_compute).
  pose proof (parseDigits_decimal _ _ (String c t) Hmax Hroom 0
                ltac:(lia)) as Hloop.
  destruct (Strconv.parseDigits _ _ _ _ _) as [v|e].
  - destruct Hloop as [Hv Hle]. split; [done | lia].
  - intros (v & Hv & Hle). apply Hloop. exists v. split; [done | lia].
Qed.

(** A constant on its own is written as the binary form of its value. *)
Lemma code_constant (literal : string) (n : Z) :
  isUint16 n →
  code (W := Buffer) [AIns (mkA literal false n)] ""
  = (binary16 n +:+ nl, None).
Proof.
  intros Hn. rewrite (code_declared _ _ ∅) by done.
  rewrite emit_A. cbv zeta. rewrite resolve_constant by done.
  rewrite Buffer_Write. simpl fst. simpl snd. rewrite str_app_empty_l.
  unfold len. rewrite str_length_app, b016_length by done.
  simpl. by rewrite b016_binary16.
Qed.

(** C6. For a line [@t] whose [t] starts with a digit, parseAInstruction
    succeeds exactly when [t] is an unsigned decimal numeral of value [n]
    with [0 ≤ n ≤ 32767]; anything else (a sign, another character, a
    larger value) is a parse error.  The instruction then is the constant
    [n], and its code is the 16-bit binary form of [n], whose top bit is
    0. *)
Theorem parseAInstruction_constant `{Unicode.RangeTables} (t : string) :
  isDecimalDigit (head t) = true →
  match parseAInstruction (String "@" t) with
  | inl ins =>
    ∃ n, decimal t = Some n ∧ 0 ≤ n ≤ 32767
         ∧ ins = {| Literal := t; IsSymbol := false; Value := n |}
         ∧ Fmt.b016 (codeAInstruction ins) = binary16 n
         ∧ code (W := Buffer) [AIns ins] "" = (binary16 n +:+ nl, None)
         ∧ topBit (binary16 n) = Some "0"%char
  | inr e =>
    kindOf e = ParseError ∧ ¬ ∃ n, decimal t = Some n ∧ 0 ≤ n ≤ 32767
  end.
Proof.
  intros Hdigit. destruct t as [|c t]; [discriminate|].
  unfold parseAInstruction.
  assert (Hlen : len (String "@" (String c t)) <? 2 = false).
  { apply Z.ltb_ge. unfold len. simpl String.length. lia. }
  rewrite Hlen. simpl Str.from. rewrite IsDigit_byte, Hdigit.
  pose proof (ParseUint_decimal (String c t)) as Hparse.
  destruct (Strconv.ParseUint (String c t) 10 15) as [v|e]; [|done].
  destruct Hparse as [Hv Hle].
  assert (Hu : isUint16 v) by (unfold isUint16; lia).
  exists v. rewrite uint16_id by done.
  do 3 (split; [done|]).
  split; [by apply b016_binary16|].
  split; [by apply code_constant|].
  rewrite binary16_topBit. f_equal. apply bitChar_15; [done | lia].
Qed.

Lemma parseAInstruction_constant_witness :
  isDecimalDigit (head "32767") = true
  ∧ parseAInstruction (H := Latin1) "@32767"
    = inl {| Literal := "32767"; IsSymbol := false; Value := 32767 |}.
Proof.
  split; [reflexivity|].
  pose proof (parseAInstruction_constant (H := Latin1) "32767" eq_refl) as Hspec.
  destruct (parseAInstruction (H := Latin1) "@32767") as [ins|e].
  - destruct Hspec as (n & Hn & _ & -> & _).
    injection Hn as <-. reflexivity.
  - destruct Hspec as [_ Hnot]. exfalso. apply Hnot. exists 32767.
    split; [reflexivity | lia].
Defined.

(** C5. Assembling the six lines @2, D=A, @3, D=D+A, @0, M=D succeeds and
    writes exactly the six lines 0000000000000010, 1110110000010000,
    0000000000000011, 1110000010010000, 0000000000000000 and
    1110001100001000, in that order. *)
Theorem Assemble_Add `{Unicode.RangeTables} :
  Assemble (W := Buffer) prog_Add ""
  = (unlines ["0000000000000010"; "1110110000010000"; "0000000000000011";
              "1110000010010000"; "0000000000000000"; "1110001100001000"],
     None).
Proof. vm_compute. reflexivity. Qed.

(** parseCInstruction returns an instruction whatever the line. *)
Lemma parseCInstruction_total (in_ : string) :
  ∃ ins, parseCInstruction in_ = inl ins.
Proof.
  unfold parseCInstruction.
  destruct (Strings.Cut in_ "=") as [[dest rest] foundEquals].
  destruct (if foundEquals then _ else _) as [dest' rest'].
  destruct (Strings.Cut rest' ";") as [[comp jump] foundSemicolon].
  by eexists.
Qed.

(** C1, on the lines [D] (neither [=] nor [;]) and [D=] (no comp): the
    parser returns an instruction and no error.  The first is then encoded
    as if it were a computation without destination and jump. *)
Theorem parseCInstruction_accepts_malformed `{Unicode.RangeTables} :
  parseCInstruction "D" = inl {| Dest := ""; Comp := "D"; Jump := "" |}
  ∧ parseCInstruction "D=" = inl {| Dest := "D"; Comp := ""; Jump := "" |}
  ∧ Assemble (W := Buffer) "D" "" = ("1110001100000000" +:+ nl, None).
Proof. split_and!; vm_compute; reflexivity. Qed.

(** C3, on the line [(()]: parseLabel returns a label with the empty
    literal, although the text between the parentheses is [(]. *)
Theorem parseLabel_accepts_parenthesis `{Unicode.RangeTables} :
  parseLabel "(()" = inl {| labelLiteral := "" |}
  ∧ parseLabel "((X))" = inl {| labelLiteral := "X" |}.
Proof. split; vm_compute; reflexivity. Qed.

(** ** Rejected label declarations *)

(** C9 (amended).  If the sequence declares a label twice or declares a
    reserved literal, the run fails with a DuplicateLabelError or a
    ReservedSymbolError and writes nothing.  The error is the duplicate one
    when no declared literal is reserved, and the reserved one when no label
    is declared twice.  In every case the first offending declaration
    decides: there is a first declaration that repeats an earlier label or
    is reserved, and the error is the duplicate one of its literal when it
    repeats an earlier label, the reserved one of its literal otherwise. *)
Theorem code_rejects_labels `{Writer W}
    (instructions : list instruction) (w : W) :
  ¬ NoDup (labelsOf instructions) ∨ Exists reserved (labelsOf instructions) →
  ∃ e, code instructions w = (w, Some e)
       ∧ (kindOf e = DuplicateLabelError ∨ kindOf e = ReservedSymbolError)
       ∧ (Forall (λ x, ¬ reserved x) (labelsOf instructions) →
          kindOf e = DuplicateLabelError)
       ∧ (NoDup (labelsOf instructions) → kindOf e = ReservedSymbolError)
       ∧ (∃ pre l post,
            instructions = pre ++ Lbl l :: post
            ∧ NoDup (labelsOf pre)
            ∧ Forall (λ x, ¬ reserved x) (labelsOf pre)
            ∧ (labelLiteral l ∈ labelsOf pre ∨ reserved (labelLiteral l)))
       ∧ (∀ pre l post,
            instructions = pre ++ Lbl l :: post →
            NoDup (labelsOf pre) →
            Forall (λ x, ¬ reserved x) (labelsOf pre) →
            (labelLiteral l ∈ labelsOf pre →
             e = errRedeclared (labelLiteral l))
            ∧ (labelLiteral l ∉ labelsOf pre → reserved (labelLiteral l) →
               e = errPredefined (labelLiteral l))).
Proof.
  intros Hbad. destruct (declare instructions ∅ 0) as [t|e] eqn:Hrun.
  { apply declare_inl in Hrun as (Hnd & Hnew & _); [|apply isUint16_0].
    destruct Hbad as [Hdup|Hres]; [done|].
    apply Exists_exists in Hres as (x & Hx & Hres).
    by destruct (Hnew x Hx). }
  exists e. split; [by apply code_undeclared|].
  assert (Hbound : ∀ pre t', declare pre ∅ 0 = inl t' →
            ∀ x, is_Some (t' !! x) ↔ x ∈ labelsOf pre).
  { intros pre t' Hpre x. rewrite <- elem_of_dom, (declared_dom _ _ _ _ Hpre).
    by rewrite dom_empty_L, (left_id_L ∅ (∪)), elem_of_list_to_set. }
  split_and!.
  - apply declare_inr in Hrun as [(x & -> & _)|(x & -> & _)]; [by left | by right].
  - intros Hnone.
    apply declare_inr in Hrun as [(x & -> & _)|(x & -> & Hx & Hres)]; [done|].
    rewrite Forall_forall in Hnone. by destruct (Hnone x Hx).
  - intros Hnd.
    apply declare_inr in Hrun as [(x & -> & Hx & Hwhy)|(x & -> & _)]; [|done].
    destruct Hwhy as [[v Hv]|Hdup]; [by rewrite lookup_empty in Hv | done].
  - apply declare_stops in Hrun as (pre & l & post & t' & -> & Hpre & Hwhy).
    exists pre, l, post. split; [done|].
    destruct (declare_inl _ _ _ _ isUint16_0 Hpre) as (Hnd & Hnew & _).
    split; [done|]. split.
    { apply Forall_forall. intros x Hx. by destruct (Hnew x Hx). }
    destruct Hwhy as [[Hin _]|(_ & Hres & _)]; [left | by right].
    by apply (Hbound _ _ Hpre).
  - intros pre l post -> Hnd Hres.
    destruct (declare_ok pre ∅ 0 Hnd) as [t' Hpre].
    { rewrite Forall_forall in Hres. intros x Hx.
      split; [apply lookup_empty | by apply Hres]. }
    destruct (declare_app pre (Lbl l :: post) _ _ _ Hpre) as [pc' Happ].
    rewrite Happ in Hrun. simpl in Hrun.
    destruct (decide (is_Some (t' !! labelLiteral l))) as [Hin|Hout].
    + injection Hrun as <-. split; [done|].
      intros Hnotin. by apply (Hbound _ _ Hpre) in Hin.
    + split; [intros Hin; by apply (Hbound _ _ Hpre) in Hin|].
      intros _ Hreserved.
      destruct (decide (is_Some (predefinedSymbols !! labelLiteral l)));
        [by injection Hrun as <- | done].
Qed.

Lemma code_rejects_labels_witness :
  (¬ NoDup (labelsOf prog_LOOP_twice)
   ∨ Exists reserved (labelsOf prog_LOOP_twice))
  ∧ ∃ e, code (W := Buffer) prog_LOOP_twice "" = ("", Some e)
         ∧ (kindOf e = DuplicateLabelError ∨ kindOf e = ReservedSymbolError).
Proof.
  assert (Hbad : ¬ NoDup (labelsOf prog_LOOP_twice)
                 ∨ Exists reserved (labelsOf prog_LOOP_twice)).
  { left. apply (bool_decide_unpack _). vm_compute. exact I. }
  split; [exact Hbad|].
  destruct (code_rejects_labels (W := Buffer) prog_LOOP_twice "" Hbad)
    as (e & Hrun & Hkind & _).
  exists e. split; [exact Hrun | exact Hkind].
Defined.

(** The reserved literal R0 declared twice: the run fails on the first
    declaration, with the error of a reserved symbol and not that of a
    duplicate. *)
Lemma code_R0_twice :
  ¬ NoDup (labelsOf prog_R0_twice)
  ∧ code (W := Buffer) prog_R0_twice "" = ("", Some (errPredefined "R0"))
  ∧ kindOf (errPredefined "R0") ≠ DuplicateLabelError.
Proof.
  split; [apply (bool_decide_unpack _); vm_compute; exact I|].
  split; [vm_compute; reflexivity | discriminate].
Qed.

(** ** Failing runs *)

Lemma parseAInstruction_kind `{Unicode.RangeTables} (in_ : string) (e : error) :
  parseAInstruction in_ = inr e → kindOf e = ParseError.
Proof.
  unfold parseAInstruction. destruct (len in_ <? 2); [by intros [= <-]|].
  destruct (Unicode.IsDigit _).
  - destruct (Strconv.ParseUint _ _ _); [done | by intros [= <-]].
  - destruct (containsOnly _ _); [done | by intros [= <-]].
Qed.

Lemma parseLabel_kind `{Unicode.RangeTables} (in_ : string) (e : error) :
  parseLabel in_ = inr e → kindOf e = ParseError.
Proof.
  unfold parseLabel. destruct (len in_ <? 3); [by intros [= <-]|].
  destruct (negb _); [by intros [= <-]|].
  destruct (negb _); [by intros [= <-]|].
  destruct (containsOnly _ _); [done | by intros [= <-]].
Qed.

Lemma parseLines_kind `{Unicode.RangeTables} (texts : list string) :
  ∀ (instructions : list instruction) (e : error),
  parseLines texts instructions = inr e → kindOf e = ParseError.
Proof.
  induction texts as [|text texts IH]; intros instructions e; simpl; [done|].
  destruct (Strings.Cut text "//") as [[line after] found].
  destruct (len _ =? 0); [apply IH|].
  destruct (Ascii.eqb _ "@").
  { destruct (parseAInstruction _) as [ins|err] eqn:Hp; [apply IH|].
    intros [= <-]. by apply parseAInstruction_kind in Hp. }
  destruct (Ascii.eqb _ "(").
  { destruct (parseLabel _) as [ins|err] eqn:Hp; [apply IH|].
    intros [= <-]. by apply parseLabel_kind in Hp. }
  destruct (parseCInstruction_total (Strings.TrimSpace line)) as [ins ->].
  apply IH.
Qed.

Lemma codeCInstruction_kind (c : cInstruction) (e : error) :
  codeCInstruction c = inr e → kindOf e = UnknownMnemonicError.
Proof.
  unfold codeCInstruction.
  destruct (compToA !! Comp c); [|by intros [= <-]].
  destruct (compToC !! Comp c); [|by intros [= <-]].
  destruct (if decide (Dest c = "") then _ else _); [|by intros [= <-]].
  destruct (if decide (Jump c = "") then _ else _); [done | by intros [= <-]].
Qed.

(** The third loop fails on a write, or at a C-instruction with an unknown
    mnemonic; the instructions before that one have been written. *)
Lemma emit_failure `{Writer W} (instructions : list instruction) :
  ∀ (t : gmap string Z) (n : Z) (w w' : W) (e : error),
  emit instructions t n w = (w', Some e) →
  kindOf e = WriteError
  ∨ ∃ pre c post err,
      instructions = pre ++ CIns c :: post
      ∧ codeCInstruction c = inr err ∧ e = errEncodeC c err
      ∧ kindOf e = UnknownMnemonicError
      ∧ emit pre t n w = (w', None).
Proof.
  induction instructions as [|[a|c|l] rest IH]; intros t n w w' e.
  - done.
  - rewrite emit_A. cbv zeta.
    destruct (negb _) eqn:Hn; [intros [= <- <-]; by left|].
    destruct (Write w _).2.2 eqn:Herr; [intros [= <- <-]; by left|].
    intros Hrun. apply IH in Hrun as [Hkind|Hstop]; [by left|right].
    destruct Hstop as (pre & c & post & err & -> & Hc & -> & Hkind & Hpre).
    exists (AIns a :: pre), c, post, err. split_and!; try done.
    simpl app. rewrite emit_A. cbv zeta. by rewrite Hn, Herr.
  - rewrite emit_C. destruct (codeCInstruction c) as [code|err] eqn:Hcode.
    2: { intros [= <- <-]. right. exists [], c, rest, err.
         split_and!; try done. simpl. by apply (codeCInstruction_kind c). }
    cbv zeta.
    destruct (negb _) eqn:Hn; [intros [= <- <-]; by left|].
    destruct (Write w _).2.2 eqn:Herr; [intros [= <- <-]; by left|].
    intros Hrun. apply IH in Hrun as [Hkind|Hstop]; [by left|right].
    destruct Hstop as (pre & c' & post & err & -> & Hc & -> & Hkind & Hpre).
    exists (CIns c :: pre), c', post, err. split_and!; try done.
    simpl app. rewrite emit_C, Hcode. cbv zeta. by rewrite Hn, Herr.
  - simpl. intros Hrun. apply IH in Hrun as [Hkind|Hstop]; [by left|right].
    destruct Hstop as (pre & c & post & err & -> & Hc & -> & Hkind & Hpre).
    by exists (Lbl l :: pre), c, post, err.
Qed.

(** C2 (amended).  A run that fails returns an error of one of the kinds.
    After a parse error, a duplicate label or a reserved label nothing has
    been written.  After an unknown mnemonic the sink has received the
    lines of the instructions before the offending one: the output is
    partial.  The remaining failures are those of the sink itself. *)
Theorem Assemble_failure `{Writer W} `{Unicode.RangeTables}
    (r : string) (w w' : W) (e : error) :
  Assemble r w = (w', Some e) →
  ((kindOf e = ParseError ∨ kindOf e = DuplicateLabelError
    ∨ kindOf e = ReservedSymbolError) ∧ w' = w)
  ∨ (kindOf e = UnknownMnemonicError
     ∧ ∃ instructions t pre c post err,
         parse r = inl instructions
         ∧ symbolTableBefore instructions = Some t
         ∧ instructions = pre ++ CIns c :: post
         ∧ codeCInstruction c = inr err ∧ e = errEncodeC c err
         ∧ emit pre t 16 w = (w', None))
  ∨ kindOf e = WriteError.
Proof.
  unfold Assemble, AssembleIn.
  destruct (parse r) as [instructions|err] eqn:Hparse.
  2: { intros [= <- <-]. left. split; [|done]. left.
       by apply parseLines_kind in Hparse. }
  fold (code instructions w).
  destruct (declare instructions ∅ 0) as [t|err] eqn:Hdeclare.
  - rewrite (code_declared _ _ _ Hdeclare). intros Hrun.
    apply emit_failure in Hrun as [Hkind|Hstop]; [by right; right|].
    destruct Hstop as (pre & c & post & err & -> & Hc & -> & Hkind & Hpre).
    right; left. split; [done|].
    exists (pre ++ CIns c :: post), (predefinedSymbols ∪ t), pre, c, post, err.
    split_and!; try done. by apply symbolTableBefore_declared.
  - rewrite (code_undeclared _ _ _ Hdeclare). intros [= <- <-].
    left. split; [|done]. right.
    apply declare_inr in Hdeclare as [(x & -> & _)|(x & -> & _)]; auto.
Qed.

Lemma Assemble_failure_witness :
  Assemble (W := Buffer) (H0 := Latin1) ("@2" +:+ nl +:+ "FOO") ""
    = ("0000000000000010" +:+ nl,
       Some (errEncodeC (mkC "" "FOO" "") (errABit "FOO")))
  ∧ ∃ instructions t pre c post err,
      parse (H := Latin1) ("@2" +:+ nl +:+ "FOO") = inl instructions
      ∧ symbolTableBefore instructions = Some t
      ∧ instructions = pre ++ CIns c :: post
      ∧ codeCInstruction c = inr err
      ∧ errEncodeC (mkC "" "FOO" "") (errABit "FOO") = errEncodeC c err
      ∧ emit (W := Buffer) pre t 16 "" = ("0000000000000010" +:+ nl, None).
Proof.
  assert (Hrun :
    Assemble (W := Buffer) (H0 := Latin1) ("@2" +:+ nl +:+ "FOO") ""
    = ("0000000000000010" +:+ nl,
       Some (errEncodeC (mkC "" "FOO" "") (errABit "FOO"))))
    by (vm_compute; reflexivity).
  split; [exact Hrun|].
  destruct (Assemble_failure (W := Buffer) (H0 := Latin1) _ _ _ _ Hrun)
    as [[[Hk|[Hk|Hk]] _]|[[_ Hstop]|Hk]];
    [discriminate Hk.. | exact Hstop | discriminate Hk].
Defined.

(** An unknown mnemonic in the second instruction: the error is returned
    after the line of the first instruction has been written. *)
Lemma code_partial_output :
  code (W := Buffer) prog_Unknown ""
  = ("0000000000000010" +:+ nl,
     Some (errEncodeC (mkC "" "FOO" "") (errABit "FOO"))).
Proof. vm_compute. reflexivity. Qed.

(** ** Determinism *)

(** C10.  Assemble is deterministic: whatever orders the two runs range
    over the predefined symbols in, they leave the same sink and return the
    same error or success. *)
Theorem Assemble_deterministic `{Writer W} `{Unicode.RangeTables}
    (order1 order2 : list (string * Z)) (r : string) (w : W) :
  order1 ≡ₚ map_to_list predefinedSymbols →
  order2 ≡ₚ map_to_list predefinedSymbols →
  AssembleIn order1 r w = AssembleIn order2 r w.
Proof.
  intros H1 H2. unfold AssembleIn.
  destruct (parse r) as [instructions|e]; [|done].
  by rewrite !codeIn_code.
Qed.

Lemma Assemble_deterministic_witness :
  AssembleIn (W := Buffer) (H0 := Latin1)
    (map_to_list predefinedSymbols) prog_Add ""
  = AssembleIn (W := Buffer) (H0 := Latin1)
      (reverse (map_to_list predefinedSymbols)) prog_Add "".
Proof.
  apply (Assemble_deterministic (W := Buffer) (H0 := Latin1)).
  - reflexivity.
  - apply reverse_Permutation.
Defined.

(** ** The symbol table of a run *)

(** The third loop starts from the predefined symbols and the labels. *)
Lemma before_dom (instructions : list instruction) (t : gmap string Z) :
  declare instructions ∅ 0 = inl t →
  dom (predefinedSymbols ∪ t)
  = dom predefinedSymbols ∪ list_to_set (labelsOf instructions).
Proof.
  intros Hrun. rewrite dom_union_L, (declared_dom _ _ _ _ Hrun), dom_empty_L.
  by rewrite (left_id_L ∅ (∪)).
Qed.

(** A run of [code] that succeeds declared its labels. *)
Lemma code_ok_declared `{Writer W} (instructions : list instruction)
    (w w' : W) :
  code instructions w = (w', None) →
  ∃ t, declare instructions ∅ 0 = inl t.
Proof.
  destruct (declare instructions ∅ 0) as [t|e] eqn:Hrun; [by eexists|].
  by rewrite (code_undeclared _ _ _ Hrun).
Qed.

Lemma resolvedValue_declared (instructions pre : list instruction)
    (a : aInstruction) (t : gmap string Z) :
  declare instructions ∅ 0 = inl t →
  resolvedValue instructions pre a
  = Some (Value (resolve a (resolved pre (predefinedSymbols ∪ t) 16).1
                           (resolved pre (predefinedSymbols ∪ t) 16).2).1.1).
Proof.
  intros Hrun. unfold resolvedValue.
  rewrite (symbolTableBefore_declared _ _ Hrun). simpl.
  by destruct (resolved pre _ 16).
Qed.

Lemma symbolTableOf_declared (instructions : list instruction)
    (t : gmap string Z) :
  declare instructions ∅ 0 = inl t →
  symbolTableOf instructions
  = Some (resolved instructions (predefinedSymbols ∪ t) 16).1.
Proof.
  intros Hrun. unfold symbolTableOf.
  by rewrite (symbolTableBefore_declared _ _ Hrun).
Qed.

(** The value a symbolic A-instruction is encoded with is the value its
    literal has in the symbol table at the end of the run. *)
Lemma resolved_final (pre post : list instruction) (a : aInstruction)
    (t : gmap string Z) (n : Z) :
  IsSymbol a = true →
  (resolved (pre ++ AIns a :: post) t n).1 !! Literal a
  = Some (Value (resolve a (resolved pre t n).1 (resolved pre t n).2).1.1).
Proof.
  intros Hsym. rewrite resolved_app, resolved_A.
  by apply resolved_keeps, resolve_binds.
Qed.

(** The line of an A-instruction in the output of [code]. *)
Lemma code_line (pre post : list instruction) (a : aInstruction)
    (out : Buffer) :
  code (W := Buffer) (pre ++ AIns a :: post) "" = (out, None) →
  ∃ (v : Z) (before after : string),
    resolvedValue (pre ++ AIns a :: post) pre a = Some v
    ∧ out = before +:+ (Fmt.b016 v +:+ nl) +:+ after
    ∧ len before = 17 * pcOf pre
    ∧ ((IsSymbol a = false → isUint16 (Value a)) → isUint16 v)
    ∧ (post = [] → after = "").
Proof.
  intros Hrun. destruct (code_ok_declared _ _ _ Hrun) as [t Ht].
  rewrite (code_declared _ _ _ Ht) in Hrun.
  rewrite (resolvedValue_declared _ _ _ _ Ht).
  pose proof (before_uint16 _ _ Ht) as Htable.
  destruct (resolved_uint16 pre _ _ Htable isUint16_16) as [Ht1 Hn1].
  rewrite emit_app in Hrun.
  destruct (emit (W := Buffer) pre _ 16 "") as [before [e|]] eqn:Hpre; [done|].
  rewrite emit_A in Hrun. cbv zeta in Hrun.
  rewrite Buffer_Write in Hrun. simpl fst in Hrun. simpl snd in Hrun.
  revert Hrun. destruct (len _ =? 17) eqn:Hlen; simpl; intros Hrun; [|done].
  rewrite emit_Buffer in Hrun.
  destruct (emit (W := Buffer) post _ _ "") as [after r] eqn:Hpost.
  simpl in Hrun. injection Hrun as <- ->.
  eexists _, before, after. split_and!.
  - done.
  - by rewrite !str_app_assoc.
  - by apply emit_Buffer_len in Hpre.
  - intros Ha. by apply resolve_value_uint16.
  - intros ->. simpl in Hpost. by injection Hpost as <-.
Qed.

(** ** Labels *)

(** C7 (amended).  In a sequence without duplicate or reserved labels, the
    address registered for a label is the number of non-label instructions
    before its declaration, reduced modulo 2^16 (the program counter is a
    [uint16]; below 65536 instructions this is the number itself).  Every
    [@L] that refers to the label, before or after the declaration,
    resolves to that address, and a run that succeeds writes it as the
    line of that instruction. *)
Theorem label_addresses (instructions pre post : list instruction) (l : label) :
  NoDup (labelsOf instructions) →
  Forall (λ x, ¬ reserved x) (labelsOf instructions) →
  instructions = pre ++ Lbl l :: post →
  ∃ t, declare instructions ∅ 0 = inl t
    ∧ t !! labelLiteral l = Some (pcOf pre mod 2 ^ 16)
    ∧ (pcOf pre < 2 ^ 16 → t !! labelLiteral l = Some (pcOf pre))
    ∧ ∀ pre' a post',
        instructions = pre' ++ AIns a :: post' →
        IsSymbol a = true → Literal a = labelLiteral l →
        resolvedValue instructions pre' a = Some (pcOf pre mod 2 ^ 16)
        ∧ ∀ out, code (W := Buffer) instructions "" = (out, None) →
            ∃ before after,
              out = before +:+ (binary16 (pcOf pre mod 2 ^ 16) +:+ nl)
                    +:+ after
              ∧ len before = 17 * pcOf pre'.
Proof.
  intros Hnd Hres Hsplit. rewrite Forall_forall in Hres.
  destruct (declare_ok instructions ∅ 0 Hnd) as [t Ht].
  { intros x Hx. split; [apply lookup_empty | by apply Hres]. }
  exists t. split; [done|].
  destruct (declare_inl _ _ _ _ isUint16_0 Ht) as (_ & _ & _ & Hbind).
  specialize (Hbind _ _ _ Hsplit). unfold uint16 in Hbind.
  rewrite Z.add_0_l in Hbind.
  split; [done|].
  split.
  { intros Hsmall. rewrite Hbind. f_equal. apply Z.mod_small.
    pose proof (pcOf_nonneg pre). lia. }
  intros pre' a post' Hsplit' Hsym Hlit.
  assert (Hfree : predefinedSymbols !! labelLiteral l = None).
  { apply eq_None_not_Some. apply Hres. rewrite Hsplit. apply labelsOf_elem. }
  assert (Hvalue : resolvedValue instructions pre' a
                   = Some (pcOf pre mod 2 ^ 16)).
  { rewrite (resolvedValue_declared _ _ _ _ Ht).
    erewrite resolve_bound; [done | done |].
    rewrite Hlit. apply resolved_keeps.
    by rewrite lookup_union_r. }
  split; [done|].
  intros out Hrun. rewrite Hsplit' in Hrun.
  destruct (code_line _ _ _ _ Hrun)
    as (v & before & after & Hv & -> & Hlen & Hu & _).
  rewrite <- Hsplit', Hvalue in Hv. injection Hv as <-.
  exists before, after. split; [|done].
  rewrite b016_binary16; [done|]. apply Hu. congruence.
Qed.

Lemma label_addresses_witness :
  NoDup (labelsOf prog_LabelUse)
  ∧ Forall (λ x, ¬ reserved x) (labelsOf prog_LabelUse)
  ∧ ∃ t, declare prog_LabelUse ∅ 0 = inl t
         ∧ t !! "OUTPUT" = Some (2 mod 2 ^ 16).
Proof.
  assert (Hnd : NoDup (labelsOf prog_LabelUse))
    by (apply (bool_decide_unpack _); vm_compute; exact I).
  assert (Hres : Forall (λ x, ¬ reserved x) (labelsOf prog_LabelUse))
    by (apply (bool_decide_unpack _); vm_compute; exact I).
  split; [exact Hnd|]. split; [exact Hres|].
  destruct (label_addresses prog_LabelUse
              [AIns (mkA "OUTPUT" true 0); AIns (mkA "R15" true 0)]
              [CIns (mkC "D" "A" "")] (mkLabel "OUTPUT")
              Hnd Hres eq_refl) as (t & Ht & Hbind & _).
  exists t. split; [exact Ht | exact Hbind].
Defined.

Lemma copies_pcOf : pcOf (copies 65536) = 65536.
Proof. vm_compute. reflexivity. Qed.

(** A label after 65536 instructions is registered at address 0. *)
Lemma label_after_65536_instructions :
  NoDup (labelsOf prog_Wrap)
  ∧ Forall (λ x, ¬ reserved x) (labelsOf prog_Wrap)
  ∧ prog_Wrap = copies 65536 ++ [Lbl (mkLabel "END")]
  ∧ pcOf (copies 65536) = 65536
  ∧ ∃ t, declare prog_Wrap ∅ 0 = inl t ∧ t !! "END" = Some 0.
Proof.
  assert (Hnd : NoDup (labelsOf prog_Wrap))
    by (apply (bool_decide_unpack _); vm_compute; exact I).
  assert (Hres : ∀ x, x ∈ labelsOf prog_Wrap →
            (∅ : gmap string Z) !! x = None ∧ ¬ reserved x).
  { assert (Hall : Forall (λ x, ¬ reserved x) (labelsOf prog_Wrap))
      by (apply (bool_decide_unpack _); vm_compute; exact I).
    rewrite Forall_forall in Hall. intros x Hx.
    split; [apply lookup_empty | by apply Hall]. }
  split; [exact Hnd|].
  split; [apply Forall_forall; intros x Hx; by apply Hres|].
  split; [reflexivity|]. split; [apply copies_pcOf|].
  destruct (declare_ok prog_Wrap ∅ 0 Hnd Hres) as [t Ht].
  exists t. split; [done|].
  destruct (declare_inl _ _ _ _ isUint16_0 Ht) as (_ & _ & _ & Hbind).
  pose proof (Hbind (copies 65536) (mkLabel "END") [] eq_refl) as Hend.
  simpl labelLiteral in Hend. by rewrite Hend, copies_pcOf.
Qed.

(** ** Runs that succeed *)

(** On a buffer, [code] succeeds on every well-typed sequence without
    duplicate or reserved labels whose mnemonics are known. *)
Lemma code_Buffer_ok (instructions : list instruction) :
  NoDup (labelsOf instructions) →
  Forall (λ x, ¬ reserved x) (labelsOf instructions) →
  Forall wellTyped instructions → Forall encodable instructions →
  ∃ out, code (W := Buffer) instructions "" = (out, None).
Proof.
  intros Hnd Hres Hwt Henc. rewrite Forall_forall in Hres.
  destruct (declare_ok instructions ∅ 0 Hnd) as [t Ht].
  { intros x Hx. split; [apply lookup_empty | by apply Hres]. }
  rewrite (code_declared _ _ _ Ht).
  apply emit_Buffer_ok; [by apply (before_uint16 instructions) | | done..].
  apply isUint16_16.
Qed.

Lemma copies_are (n : positive) :
  Forall (λ i, i = CIns (mkC "D" "A" "")) (copies n).
Proof.
  unfold copies. apply Pos.iter_invariant; [|constructor].
  intros rest Hrest. by constructor.
Qed.

Lemma copies_ok (n : positive) :
  Forall wellTyped (copies n) ∧ Forall encodable (copies n).
Proof.
  split; (eapply Forall_impl; [apply copies_are|]); intros i ->; [done|].
  eexists. vm_compute. reflexivity.
Qed.

Lemma variablesFrom_ok (count : nat) :
  ∀ i, Forall wellTyped (variablesFrom count i)
       ∧ Forall encodable (variablesFrom count i)
       ∧ labelsOf (variablesFrom count i) = [].
Proof.
  induction count as [|k IH]; intros i; simpl; [done|].
  destruct (IH (i + 1)) as (Hwt & Henc & Hl).
  split_and!; [constructor; [|done] | by constructor | done].
  simpl. unfold isUint16. lia.
Qed.

(** ** A-instructions in the output *)

(** In a run that succeeds, the line written for an A-instruction, numeric
    or symbolic, is the 16-bit unsigned binary representation of the value
    the instruction resolves to.  Its top (first) bit is 0 exactly when
    that value is at most 32767. *)
Theorem A_instruction_line (instructions pre post : list instruction)
    (a : aInstruction) (out : Buffer) :
  Forall wellTyped instructions →
  code (W := Buffer) instructions "" = (out, None) →
  instructions = pre ++ AIns a :: post →
  ∃ v before after,
    resolvedValue instructions pre a = Some v
    ∧ isUint16 v
    ∧ out = before +:+ (binary16 v +:+ nl) +:+ after
    ∧ len before = 17 * pcOf pre
    ∧ (topBit (binary16 v) = Some "0"%char ↔ v ≤ 32767).
Proof.
  intros Hwt Hrun Hsplit. rewrite Hsplit in Hrun.
  destruct (code_line _ _ _ _ Hrun)
    as (v & before & after & Hv & -> & Hlen & Hu & _).
  assert (Hrange : isUint16 v).
  { apply Hu. intros _. rewrite Hsplit in Hwt.
    apply Forall_app in Hwt as [_ Hwt]. by apply Forall_cons in Hwt as [Ha _]. }
  exists v, before, after. rewrite Hsplit.
  do 2 (split; [done|]).
  split; [by rewrite b016_binary16|]. split; [done|].
  rewrite binary16_topBit. rewrite <- (bitChar_15 v Hrange).
  split; [by intros [= ->] | by intros ->].
Qed.

Lemma A_instruction_line_witness :
  Forall wellTyped prog_LabelUse
  ∧ code (W := Buffer) prog_LabelUse ""
    = (unlines ["0000000000000010"; "0000000000001111"; "1110110000010000"],
       None)
  ∧ ∃ v before after,
      resolvedValue prog_LabelUse [AIns (mkA "OUTPUT" true 0)]
        (mkA "R15" true 0) = Some v
      ∧ isUint16 v
      ∧ unlines ["0000000000000010"; "0000000000001111"; "1110110000010000"]
        = before +:+ (binary16 v +:+ nl) +:+ after
      ∧ len before = 17 * pcOf [AIns (mkA "OUTPUT" true 0)]
      ∧ (topBit (binary16 v) = Some "0"%char ↔ v ≤ 32767).
Proof.
  assert (Hwt : Forall wellTyped prog_LabelUse).
  { repeat constructor; simpl; unfold isUint16; lia. }
  assert (Hrun : code (W := Buffer) prog_LabelUse ""
    = (unlines ["0000000000000010"; "0000000000001111"; "1110110000010000"],
       None)) by (vm_compute; reflexivity).
  split; [exact Hwt|]. split; [exact Hrun|].
  exact (A_instruction_line prog_LabelUse [AIns (mkA "OUTPUT" true 0)]
           [Lbl (mkLabel "OUTPUT"); CIns (mkC "D" "A" "")]
           (mkA "R15" true 0) _ Hwt Hrun eq_refl).
Defined.

(** C4, on 32768 copies of D=A followed by (END) and @END: the run
    succeeds, and the line written for @END, the last one, is
    1000000000000000, whose top bit is 1.  The numeric path refuses the
    constant 32768; the symbolic path has no such bound. *)
Theorem label_address_32768 :
  Forall wellTyped prog_Long
  ∧ prog_Long
    = (copies 32768 ++ [Lbl (mkLabel "END")]) ++ [AIns (mkA "END" true 0)]
  ∧ ∃ before,
      code (W := Buffer) prog_Long ""
      = (before +:+ ("1000000000000000" +:+ nl), None)
      ∧ len before = 17 * 32768.
Proof.
  assert (Hsplit : prog_Long
    = (copies 32768 ++ [Lbl (mkLabel "END")]) ++ [AIns (mkA "END" true 0)]).
  { unfold prog_Long. by rewrite <- (assoc_L (++)). }
  destruct (copies_ok 32768) as [Hwt Henc].
  assert (Hwt' : Forall wellTyped prog_Long).
  { unfold prog_Long. apply Forall_app. split; [done|].
    repeat constructor. simpl. unfold isUint16. lia. }
  assert (Henc' : Forall encodable prog_Long).
  { unfold prog_Long. apply Forall_app. split; [done|]. by repeat constructor. }
  assert (Hnd : NoDup (labelsOf prog_Long))
    by (apply (bool_decide_unpack _); vm_compute; exact I).
  assert (Hres : Forall (λ x, ¬ reserved x) (labelsOf prog_Long))
    by (apply (bool_decide_unpack _); vm_compute; exact I).
  split; [done|]. split; [done|].
  destruct (code_Buffer_ok _ Hnd Hres Hwt' Henc') as [out Hrun].
  rewrite Hrun. rewrite Hsplit in Hrun.
  destruct (code_line _ _ _ _ Hrun)
    as (v & before & after & Hv & -> & Hlen & _ & Hafter).
  rewrite (Hafter eq_refl), str_app_empty_r.
  rewrite <- Hsplit in Hv.
  assert (Hvalue : resolvedValue prog_Long
                     (copies 32768 ++ [Lbl (mkLabel "END")])
                     (mkA "END" true 0) = Some 32768)
    by (vm_compute; reflexivity).
  rewrite Hvalue in Hv. injection Hv as <-.
  exists before. split; [done|].
  rewrite Hlen, pcOf_app. vm_compute. reflexivity.
Qed.

(** ** Variables *)

(** C8 (amended).  In a run that succeeds, a symbolic literal that is
    neither a predefined symbol nor a label has one address in the symbol
    table, and every occurrence of it resolves to that address and is
    written as such.  The addresses follow the first occurrences: a literal
    first met after [k] distinct variables has the address [16 + k],
    reduced modulo 2^16 (the next variable address is a [uint16]); up to
    65520 variables these are 16, 17, 18, ... in increasing order. *)
Theorem variable_addresses (instructions pre post : list instruction)
    (a : aInstruction) (out : Buffer) :
  code (W := Buffer) instructions "" = (out, None) →
  instructions = pre ++ AIns a :: post →
  IsSymbol a = true →
  ¬ reserved (Literal a) → Literal a ∉ labelsOf instructions →
  ∃ T v before after,
    symbolTableOf instructions = Some T
    ∧ T !! Literal a = Some v
    ∧ resolvedValue instructions pre a = Some v
    ∧ out = before +:+ (binary16 v +:+ nl) +:+ after
    ∧ len before = 17 * pcOf pre
    ∧ (Literal a ∉ symbolsOf pre →
       v = (16 + Z.of_nat (size (variablesOf instructions pre))) mod 2 ^ 16).
Proof.
  intros Hrun Hsplit Hsym Hnres Hnlabel.
  destruct (code_ok_declared _ _ _ Hrun) as [t Ht].
  rewrite Hsplit in Hrun.
  destruct (code_line _ _ _ _ Hrun)
    as (v & before & after & Hv & -> & Hlen & Hu & _).
  rewrite <- Hsplit in Hv.
  pose proof Hv as Hstep. rewrite (resolvedValue_declared _ _ _ _ Ht) in Hstep.
  injection Hstep as Hstep.
  exists (resolved instructions (predefinedSymbols ∪ t) 16).1, v, before, after.
  split; [by apply symbolTableOf_declared|].
  split; [rewrite Hsplit at 1; by rewrite resolved_final, Hstep|].
  split; [done|].
  split; [rewrite b016_binary16; [done|]; apply Hu; congruence|].
  split; [done|].
  intros Hfirst.
  destruct (resolved_state pre (predefinedSymbols ∪ t) 16 isUint16_16)
    as [Hdom Hnext].
  assert (Hfree : (resolved pre (predefinedSymbols ∪ t) 16).1 !! Literal a
                  = None).
  { apply not_elem_of_dom. rewrite Hdom, (before_dom _ _ Ht).
    rewrite !elem_of_union, !elem_of_list_to_set, elem_of_dom.
    intros [[Hres|Hlabel]|Hseen]; done. }
  rewrite (resolve_free _ _ _ Hsym Hfree) in Hstep. simpl in Hstep.
  rewrite <- Hstep, Hnext, (before_dom _ _ Ht). done.
Qed.

Lemma variable_addresses_witness :
  code (W := Buffer) prog_Counter ""
    = ((code (W := Buffer) prog_Counter "").1, None)
  ∧ ∃ T, symbolTableOf prog_Counter = Some T ∧ T !! "sum" = Some 17.
Proof.
  assert (Hrun : code (W := Buffer) prog_Counter ""
                 = ((code (W := Buffer) prog_Counter "").1, None))
    by (vm_compute; reflexivity).
  split; [exact Hrun|].
  assert (Hnres : ¬ reserved "sum")
    by (apply (bool_decide_unpack _); vm_compute; exact I).
  assert (Hnlabel : "sum" ∉ labelsOf prog_Counter)
    by (apply (bool_decide_unpack _); vm_compute; exact I).
  assert (Hfirst : "sum" ∉ symbolsOf
            [AIns (mkA "i" true 0); CIns (mkC "M" "1" ""); Lbl (mkLabel "LOOP")])
    by (apply (bool_decide_unpack _); vm_compute; exact I).
  destruct (variable_addresses prog_Counter
              [AIns (mkA "i" true 0); CIns (mkC "M" "1" ""); Lbl (mkLabel "LOOP")]
              [CIns (mkC "M" "0" ""); AIns (mkA "i" true 0);
               CIns (mkC "D" "M" ""); AIns (mkA "LOOP" true 0);
               CIns (mkC "" "D" "JGT")]
              (mkA "sum" true 0) _ Hrun eq_refl eq_refl Hnres Hnlabel)
    as (T & v & _ & _ & HT & Hv & _ & _ & _ & Haddr).
  exists T. split; [exact HT|].
  simpl Literal in Hv. rewrite Hv. f_equal.
  rewrite (Haddr Hfirst). vm_compute. reflexivity.
Defined.

(** *** Numbered variables *)

Lemma str_snoc_inj (s t : string) (c d : ascii) :
  s +:+ String c "" = t +:+ String d "" → s = t ∧ c = d.
Proof.
  revert t. induction s as [|x s IH]; intros [|y t]; rewrite ?str_app_cons;
    rewrite ?str_app_empty_l.
  - by intros [= ->].
  - intros [= _ Hrest]. destruct t; discriminate.
  - intros [= _ Hrest]. destruct s; discriminate.
  - intros [= -> Hrest]. apply IH in Hrest as [-> ->]. done.
Qed.

Lemma bits_nonempty (p : positive) : Fmt.bits p ≠ "".
Proof.
  destruct p as [q|q|]; simpl; [| |done];
    destruct (Fmt.bits q); rewrite ?str_app_cons; done.
Qed.

Lemma str_snoc_single (s : string) (c d : ascii) :
  s +:+ String c "" = String d "" → s = "" ∧ c = d.
Proof. apply (str_snoc_inj s "" c d). Qed.

Lemma bits_inj (p : positive) : ∀ q, Fmt.bits p = Fmt.bits q → p = q.
Proof.
  induction p as [p IH|p IH|]; intros [q|q|]; simpl; intros Heq.
  - apply str_snoc_inj in Heq as [Heq _]. by rewrite (IH _ Heq).
  - apply str_snoc_inj in Heq as [_ Hc]. discriminate Hc.
  - apply str_snoc_single in Heq as [Heq _]. by apply bits_nonempty in Heq.
  - apply str_snoc_inj in Heq as [_ Hc]. discriminate Hc.
  - apply str_snoc_inj in Heq as [Heq _]. by rewrite (IH _ Heq).
  - apply str_snoc_single in Heq as [_ Hc]. discriminate Hc.
  - symmetry in Heq.
    apply str_snoc_single in Heq as [Heq _]. by apply bits_nonempty in Heq.
  - symmetry in Heq. apply str_snoc_single in Heq as [_ Hc]. discriminate Hc.
  - done.
Qed.

(** [%b] tells the unsigned integers apart. *)
Lemma b_inj (i j : Z) : 0 ≤ i → 0 ≤ j → Fmt.b i = Fmt.b j → i = j.
Proof.
  assert (Hzero : ∀ p, Fmt.bits p ≠ "0").
  { intros [q|q|]; simpl; [| |done]; intros Heq;
      apply str_snoc_single in Heq as [Heq Hc];
      [discriminate Hc | by apply bits_nonempty in Heq]. }
  destruct i as [|p|p], j as [|q|q]; simpl; intros Hi Hj Heq; try lia.
  - symmetry in Heq. by apply Hzero in Heq.
  - by apply Hzero in Heq.
  - by rewrite (bits_inj _ _ Heq).
Qed.

Lemma name_inj (i j : Z) :
  0 ≤ i → 0 ≤ j → "v" +:+ Fmt.b i = "v" +:+ Fmt.b j → i = j.
Proof.
  intros Hi Hj Heq. rewrite !str_app_cons, !str_app_empty_l in Heq.
  injection Heq as Heq. by apply b_inj.
Qed.

(** No predefined symbol starts with a v. *)
Lemma predefinedSymbols_v (s : string) :
  predefinedSymbols !! ("v" +:+ s) = None.
Proof.
  destruct (predefinedSymbols !! ("v" +:+ s)) as [x|] eqn:Hx; [|done].
  apply elem_of_map_to_list in Hx.
  assert (Hall : Forall (λ kv, Str.first kv.1 ≠ Some "v"%char)
            (map_to_list predefinedSymbols))
    by (apply (bool_decide_unpack _); vm_compute; exact I).
  rewrite Forall_forall in Hall. by apply Hall in Hx.
Qed.

Lemma variablesFrom_length (count : nat) :
  ∀ i, length (variablesFrom count i) = count.
Proof. induction count as [|k IH]; intros i; simpl; by rewrite ?IH. Qed.

Lemma variablesFrom_snoc (count : nat) :
  ∀ i, variablesFrom (S count) i
       = variablesFrom count i
         ++ [AIns (mkA ("v" +:+ Fmt.b (i + Z.of_nat count)) true 0)].
Proof.
  induction count as [|k IH]; intros i.
  - simpl. by rewrite Z.add_0_r.
  - change (variablesFrom (S (S k)) i)
      with (AIns (mkA ("v" +:+ Fmt.b i) true 0) :: variablesFrom (S k) (i + 1)).
    rewrite IH.
    change (variablesFrom (S k) i)
      with (AIns (mkA ("v" +:+ Fmt.b i) true 0) :: variablesFrom k (i + 1)).
    replace (i + 1 + Z.of_nat k) with (i + Z.of_nat (S k)) by lia.
    by rewrite <- app_comm_cons.
Qed.

(** The symbols of the numbered variables are their names. *)
Lemma variablesFrom_symbols (count : nat) :
  ∀ i x, x ∈ symbolsOf (variablesFrom count i)
         ↔ ∃ j, i ≤ j < i + Z.of_nat count ∧ x = "v" +:+ Fmt.b j.
Proof.
  induction count as [|k IH]; intros i x.
  - simpl. split; [by intros ?%elem_of_nil | intros (j & ? & _); lia].
  - change (symbolsOf (variablesFrom (S k) i))
      with (("v" +:+ Fmt.b i) :: symbolsOf (variablesFrom k (i + 1))).
    rewrite elem_of_cons, IH. split.
    + intros [->|(j & Hj & ->)]; [exists i | exists j]; split; (done || lia).
    + intros (j & Hj & ->). destruct (decide (j = i)) as [->|Hne]; [by left|].
      right. exists j. split; [lia | done].
Qed.

(** Fresh numbered variables take consecutive addresses, modulo 2^16. *)
Lemma variablesFrom_resolved (count : nat) :
  ∀ (i : Z) (t : gmap string Z) (n : Z),
  0 ≤ i → isUint16 n →
  (∀ j, i ≤ j → t !! ("v" +:+ Fmt.b j) = None) →
  ∀ j, i ≤ j < i + Z.of_nat count →
  (resolved (variablesFrom count i) t n).1 !! ("v" +:+ Fmt.b j)
  = Some (uint16 (n + (j - i))).
Proof.
  induction count as [|k IH]; intros i t n Hi Hn Hfresh j Hj; [lia|].
  change (variablesFrom (S k) i)
    with (AIns (mkA ("v" +:+ Fmt.b i) true 0) :: variablesFrom k (i + 1)).
  rewrite resolved_A, resolve_free; [|done | by apply Hfresh; lia].
  simpl fst. simpl snd. simpl Literal.
  destruct (decide (j = i)) as [->|Hne].
  - rewrite Z.sub_diag, Z.add_0_r, (uint16_id n) by done.
    apply resolved_keeps, lookup_insert_eq.
  - rewrite (IH (i + 1)); [| lia | apply uint16_isUint16 | | lia].
    + rewrite uint16_add_l. do 2 f_equal. lia.
    + intros j' Hj'. rewrite lookup_insert_ne; [apply Hfresh; lia|].
      intros Heq. apply name_inj in Heq; lia.
Qed.

(** 65521 distinct variables: the last one, v1111111111110000, is first
    met after all the others and is given the address 0, below the address
    65535 of v1111111111101111 before it. *)
Lemma variable_address_wraps :
  prog_Variables
  = prog_Variables_init ++ [AIns (mkA "v1111111111110000" true 0)]
  ∧ (∃ out, code (W := Buffer) prog_Variables "" = (out, None))
  ∧ labelsOf prog_Variables = []
  ∧ ¬ reserved "v1111111111101111" ∧ ¬ reserved "v1111111111110000"
  ∧ "v1111111111101111" ∈ symbolsOf prog_Variables_init
  ∧ "v1111111111110000" ∉ symbolsOf prog_Variables_init
  ∧ ∃ T, symbolTableOf prog_Variables = Some T
         ∧ T !! "v1111111111101111" = Some 65535
         ∧ T !! "v1111111111110000" = Some 0.
Proof.
  assert (Hok : Forall wellTyped prog_Variables
                ∧ Forall encodable prog_Variables
                ∧ labelsOf prog_Variables = []).
  { rewrite prog_Variables_eq. apply variablesFrom_ok. }
  destruct Hok as (Hwt & Henc & Hl).
  assert (Hcount : Z.to_nat 65521 = S (Z.to_nat 65520))
    by (change 65521 with (Z.succ 65520); apply Z2Nat.inj_succ; lia).
  assert (Hinit : prog_Variables_init = variablesFrom (Z.to_nat 65520) 0).
  { unfold prog_Variables_init.
    rewrite prog_Variables_eq, Hcount, variablesFrom_snoc.
    rewrite take_app_length'; [done | symmetry; apply variablesFrom_length]. }
  assert (H19 : "v1111111111101111" = "v" +:+ Fmt.b 65519) by reflexivity.
  assert (H20 : "v1111111111110000" = "v" +:+ Fmt.b 65520) by reflexivity.
  assert (Hnd : NoDup (labelsOf prog_Variables)) by (rewrite Hl; constructor).
  assert (Hres : ∀ x, x ∈ labelsOf prog_Variables →
            (∅ : gmap string Z) !! x = None ∧ ¬ reserved x).
  { intros x Hx. rewrite Hl in Hx. apply elem_of_nil in Hx. destruct Hx. }
  split.
  { rewrite Hinit, prog_Variables_eq, Hcount, variablesFrom_snoc, H20.
    replace (0 + Z.of_nat (Z.to_nat 65520)) with 65520
      by (rewrite Z2Nat.id; lia).
    reflexivity. }
  split.
  { apply code_Buffer_ok; [exact Hnd | | exact Hwt | exact Henc].
    rewrite Hl. constructor. }
  split; [exact Hl|].
  split; [rewrite H19; intros [x Hx]; by rewrite predefinedSymbols_v in Hx|].
  split; [rewrite H20; intros [x Hx]; by rewrite predefinedSymbols_v in Hx|].
  split.
  { rewrite Hinit. apply variablesFrom_symbols. exists 65519.
    rewrite Z2Nat.id by lia. split; [lia | exact H19]. }
  split.
  { rewrite Hinit. intros Hin. apply variablesFrom_symbols in Hin.
    destruct Hin as (j & Hj & Heq). rewrite Z2Nat.id in Hj by lia.
    rewrite H20 in Heq. apply name_inj in Heq; lia. }
  pose proof (declare_ok prog_Variables ∅ 0 Hnd Hres) as [t Ht].
  assert (Hempty : t = ∅).
  { apply dom_empty_inv_L.
    by rewrite (declared_dom _ _ _ _ Ht), Hl, dom_empty_L, (left_id_L ∅ (∪)). }
  rewrite Hempty in Ht.
  rewrite (symbolTableOf_declared _ _ Ht).
  eexists. split; [reflexivity|].
  assert (Hfresh : ∀ j, 0 ≤ j →
            (predefinedSymbols ∪ (∅ : gmap string Z)) !! ("v" +:+ Fmt.b j)
            = None).
  { intros j _. rewrite (right_id_L ∅ (∪)). apply predefinedSymbols_v. }
  rewrite prog_Variables_eq, H19, H20.
  rewrite !(variablesFrom_resolved _ 0 _ 16 ltac:(lia) isUint16_16 Hfresh)
    by (rewrite Z2Nat.id; lia).
  split; reflexivity.
Qed.

(** * Further properties *)

(** ** The encoder of C-instructions *)

Lemma isBinary_app (s t : string) :
  isBinary (s +:+ t) = isBinary s && isBinary t.
Proof.
  induction s as [|c s IH]; [done|].
  rewrite str_app_cons. unfold isBinary in *. simpl.
  by rewrite IH, andb_assoc.
Qed.

Lemma table_values (P : string → Prop) (table : gmap string string) :
  Forall (λ kv, P kv.2) (map_to_list table) →
  ∀ k v, table !! k = Some v → P v.
Proof.
  intros Hall k v Hk. apply elem_of_map_to_list in Hk.
  rewrite Forall_forall in Hall. by apply (Hall (k, v)).
Qed.

Ltac by_values H :=
  eapply (table_values (λ v, isBinary v = true)); [|exact H];
  apply (bool_decide_unpack _); vm_compute; exact I.

(** The fields of an encoded C-instruction. *)
Lemma codeCInstruction_inl (c : cInstruction) (code : string) :
  codeCInstruction c = inl code →
  ∃ aBit cBits dBits jBits,
    code = "111" +:+ aBit +:+ cBits +:+ dBits +:+ jBits
    ∧ compToA !! Comp c = Some aBit
    ∧ compToC !! Comp c = Some cBits
    ∧ (if decide (Dest c = "") then Some "000" else destToD !! Dest c)
      = Some dBits
    ∧ (if decide (Jump c = "") then Some "000" else jumpToJ !! Jump c)
      = Some jBits.
Proof.
  unfold codeCInstruction.
  destruct (compToA !! Comp c) as [aBit|]; [|done].
  destruct (compToC !! Comp c) as [cBits|]; [|done].
  destruct (if decide (Dest c = "") then _ else _) as [dBits|]; [|done].
  destruct (if decide (Jump c = "") then _ else _) as [jBits|]; [|done].
  intros [= <-]. by exists aBit, cBits, dBits, jBits.
Qed.

Lemma field_lengths (c : cInstruction) (aBit cBits dBits jBits : string) :
  compToA !! Comp c = Some aBit →
  compToC !! Comp c = Some cBits →
  (if decide (Dest c = "") then Some "000" else destToD !! Dest c)
  = Some dBits →
  (if decide (Jump c = "") then Some "000" else jumpToJ !! Jump c)
  = Some jBits →
  String.length aBit = 1%nat ∧ String.length cBits = 6%nat
  ∧ String.length dBits = 3%nat ∧ String.length jBits = 3%nat.
Proof.
  intros Ha Hc Hd Hj. split_and!.
  - by_table Ha.
  - by_table Hc.
  - destruct (decide (Dest c = "")); [by injection Hd as <-|]. by_table Hd.
  - destruct (decide (Jump c = "")); [by injection Hj as <-|]. by_table Hj.
Qed.

(** An encoded C-instruction is a word of 16 binary digits that begins with
    111. *)
Theorem codeCInstruction_word (c : cInstruction) (code : string) :
  codeCInstruction c = inl code →
  String.length code = 16%nat
  ∧ Str.upto 3 code = "111"
  ∧ isBinary code = true.
Proof.
  intros Hcode. split; [by apply (codeCInstruction_length c)|].
  apply codeCInstruction_inl in Hcode
    as (aBit & cBits & dBits & jBits & -> & Ha & Hc & Hd & Hj).
  split; [done|].
  rewrite !isBinary_app.
  assert (isBinary aBit = true) as -> by by_values Ha.
  assert (isBinary cBits = true) as -> by by_values Hc.
  assert (isBinary dBits = true) as ->.
  { destruct (decide (Dest c = "")); [by injection Hd as <-|]. by_values Hd. }
  assert (isBinary jBits = true) as ->.
  { destruct (decide (Jump c = "")); [by injection Hj as <-|]. by_values Hj. }
  done.
Qed.

Lemma codeCInstruction_word_witness :
  codeCInstruction (mkC "D" "D+A" "") = inl "1110000010010000"
  ∧ String.length "1110000010010000" = 16%nat
  ∧ Str.upto 3 "1110000010010000" = "111"
  ∧ isBinary "1110000010010000" = true.
Proof.
  assert (Hcode : codeCInstruction (mkC "D" "D+A" "") = inl "1110000010010000")
    by (vm_compute; reflexivity).
  split; [exact Hcode|].
  exact (codeCInstruction_word _ _ Hcode).
Defined.

Lemma comp_tables_agree (k : string) :
  is_Some (compToA !! k) ↔ is_Some (compToC !! k).
Proof.
  assert (Hdom : dom compToA = dom compToC)
    by (apply (bool_decide_unpack _); vm_compute; exact I).
  by rewrite <- !elem_of_dom, Hdom.
Qed.

(** What codeCInstruction returns: a word exactly when comp is in its table
    and dest and jump are empty or in theirs; otherwise the error of the
    first field, in the order comp, dest, jump, that is not.  The error on
    the c-bits never occurs, as the two tables of comp have the same
    keys. *)
Theorem codeCInstruction_result (c : cInstruction) :
  match codeCInstruction c with
  | inl _ =>
    is_Some (compToA !! Comp c)
    ∧ (Dest c = "" ∨ is_Some (destToD !! Dest c))
    ∧ (Jump c = "" ∨ is_Some (jumpToJ !! Jump c))
  | inr e =>
    (compToA !! Comp c = None ∧ e = errABit (Comp c))
    ∨ (is_Some (compToA !! Comp c)
       ∧ Dest c ≠ "" ∧ destToD !! Dest c = None ∧ e = errDBits (Dest c))
    ∨ (is_Some (compToA !! Comp c)
       ∧ (Dest c = "" ∨ is_Some (destToD !! Dest c))
       ∧ Jump c ≠ "" ∧ jumpToJ !! Jump c = None ∧ e = errJBits (Jump c))
  end.
Proof.
  unfold codeCInstruction.
  destruct (compToA !! Comp c) as [aBit|] eqn:Ha; [|by left].
  assert (Hc : is_Some (compToC !! Comp c))
    by (apply comp_tables_agree; by rewrite Ha).
  destruct Hc as [cBits ->].
  destruct (decide (Dest c = "")) as [Hd|Hd].
  - destruct (decide (Jump c = "")) as [Hj|Hj]; [by auto|].
    destruct (jumpToJ !! Jump c) eqn:Hjump; [by auto|].
    right; right. by auto.
  - destruct (destToD !! Dest c) eqn:Hdest; [|right; left; by auto].
    destruct (decide (Jump c = "")) as [Hj|Hj]; [by auto|].
    destruct (jumpToJ !! Jump c) eqn:Hjump; [by auto|].
    right; right. by auto 6.
Qed.

(** ** Decoding *)

Lemma str_app_inj (s1 : string) :
  ∀ s2 t1 t2, String.length s1 = String.length s2 →
  s1 +:+ t1 = s2 +:+ t2 → s1 = s2 ∧ t1 = t2.
Proof.
  induction s1 as [|c s1 IH]; intros [|d s2] t1 t2 Hlen; try done.
  rewrite !str_app_cons. intros [= -> Heq].
  injection Hlen as Hlen. by destruct (IH _ _ _ Hlen Heq) as [-> ->].
Qed.

Lemma table_inj (table : gmap string string) :
  Forall (λ kv1, Forall (λ kv2, kv1.2 = kv2.2 → kv1.1 = kv2.1)
                   (map_to_list table)) (map_to_list table) →
  ∀ k1 k2 v, table !! k1 = Some v → table !! k2 = Some v → k1 = k2.
Proof.
  intros Hall k1 k2 v H1 H2.
  apply elem_of_map_to_list in H1, H2.
  rewrite Forall_forall in Hall. specialize (Hall _ H1).
  rewrite Forall_forall in Hall. by apply (Hall _ H2).
Qed.

(** Two mnemonics of comp with the same a-bit and the same c-bits are the
    same. *)
Lemma comp_bits_inj (k1 k2 aBit cBits : string) :
  compToA !! k1 = Some aBit → compToC !! k1 = Some cBits →
  compToA !! k2 = Some aBit → compToC !! k2 = Some cBits →
  k1 = k2.
Proof.
  intros Ha1 Hc1 Ha2 Hc2.
  assert (Hall :
    Forall (λ kv1, Forall (λ kv2,
              kv1.2 = kv2.2 → compToC !! kv1.1 = compToC !! kv2.1 →
              kv1.1 = kv2.1)
            (map_to_list compToA)) (map_to_list compToA))
    by (apply (bool_decide_unpack _); vm_compute; exact I).
  apply elem_of_map_to_list in Ha1, Ha2.
  rewrite Forall_forall in Hall. specialize (Hall _ Ha1).
  rewrite Forall_forall in Hall. apply (Hall _ Ha2); [done|].
  simpl. by rewrite Hc1, Hc2.
Qed.

(** The bits of dest, and of jump, name the mnemonic; 000 names the empty
    one only. *)
Lemma field_bits_inj (table : gmap string string) (k1 k2 bits : string) :
  table = destToD ∨ table = jumpToJ →
  (if decide (k1 = "") then Some "000" else table !! k1) = Some bits →
  (if decide (k2 = "") then Some "000" else table !! k2) = Some bits →
  k1 = k2.
Proof.
  intros Htable H1 H2.
  assert (Hinj : ∀ k1 k2 v, table !! k1 = Some v → table !! k2 = Some v →
                 k1 = k2).
  { apply table_inj.
    destruct Htable as [-> | ->];
      apply (bool_decide_unpack _); vm_compute; exact I. }
  assert (Hzero : ∀ k, table !! k ≠ Some "000").
  { intros k Hk.
    assert (Hnot : ¬ "000" ≠ "000"); [by intros Hne|]. apply Hnot.
    eapply (table_values (λ v, v ≠ "000")); [|exact Hk].
    destruct Htable as [-> | ->];
      apply (bool_decide_unpack _); vm_compute; exact I. }
  destruct (decide (k1 = "")) as [->|Hk1], (decide (k2 = "")) as [->|Hk2].
  - done.
  - injection H1 as <-. by apply Hzero in H2.
  - injection H2 as <-. by apply Hzero in H1.
  - by apply (Hinj _ _ bits).
Qed.

(** The word of a C-instruction determines its three fields: two
    instructions encoded as the same word are the same. *)
Theorem codeCInstruction_inj (c1 c2 : cInstruction) (code : string) :
  codeCInstruction c1 = inl code → codeCInstruction c2 = inl code → c1 = c2.
Proof.
  intros H1 H2.
  apply codeCInstruction_inl in H1
    as (a1 & b1 & d1 & j1 & -> & Ha1 & Hc1 & Hd1 & Hj1).
  apply codeCInstruction_inl in H2
    as (a2 & b2 & d2 & j2 & Heq & Ha2 & Hc2 & Hd2 & Hj2).
  destruct (field_lengths _ _ _ _ _ Ha1 Hc1 Hd1 Hj1) as (La1 & Lb1 & Ld1 & Lj1).
  destruct (field_lengths _ _ _ _ _ Ha2 Hc2 Hd2 Hj2) as (La2 & Lb2 & Ld2 & Lj2).
  apply str_app_inj in Heq as [_ Heq]; [|done].
  apply str_app_inj in Heq as [-> Heq]; [|congruence].
  apply str_app_inj in Heq as [-> Heq]; [|congruence].
  apply str_app_inj in Heq as [-> ->]; [|congruence].
  pose proof (comp_bits_inj _ _ _ _ Ha1 Hc1 Ha2 Hc2) as Hcomp.
  pose proof (field_bits_inj destToD _ _ _ (or_introl eq_refl) Hd1 Hd2) as Hdest.
  pose proof (field_bits_inj jumpToJ _ _ _ (or_intror eq_refl) Hj1 Hj2) as Hjump.
  destruct c1, c2. simpl in *. by subst.
Qed.

Lemma codeCInstruction_inj_witness :
  codeCInstruction (mkC "M" "D" "") = inl "1110001100001000"
  ∧ mkC "M" "D" "" = mkC "M" "D" "".
Proof.
  assert (Hcode : codeCInstruction (mkC "M" "D" "") = inl "1110001100001000")
    by (vm_compute; reflexivity).
  split; [exact Hcode|].
  exact (codeCInstruction_inj _ _ _ Hcode Hcode).
Defined.

(** The a-bit, the fourth character of the word, is 1 exactly when comp
    mentions M, the memory operand. *)
Theorem codeCInstruction_abit (c : cInstruction) (code : string) :
  codeCInstruction c = inl code →
  (String.get 3 code = Some "1"%char ↔ occurs "M" (Comp c) = true).
Proof.
  intros Hcode. apply codeCInstruction_inl in Hcode
    as (aBit & cBits & dBits & jBits & -> & Ha & Hc & Hd & Hj).
  destruct (field_lengths _ _ _ _ _ Ha Hc Hd Hj) as (La & _).
  assert (Hall : Forall (λ kv, kv.2 = "1" ↔ occurs "M" kv.1 = true)
                   (map_to_list compToA))
    by (apply (bool_decide_unpack _); vm_compute; exact I).
  apply elem_of_map_to_list in Ha. rewrite Forall_forall in Hall.
  specialize (Hall _ Ha). simpl in Hall. rewrite <- Hall.
  destruct aBit as [|x [|y rest]]; try discriminate La.
  rewrite !str_app_cons, !str_app_empty_l. simpl.
  split; [by intros [= ->] | by intros [= ->]].
Qed.

Lemma codeCInstruction_abit_witness :
  codeCInstruction (mkC "D" "D+M" "") = inl "1111000010010000"
  ∧ (String.get 3 "1111000010010000" = Some "1"%char
     ↔ occurs "M" "D+M" = true).
Proof.
  assert (Hcode : codeCInstruction (mkC "D" "D+M" "") = inl "1111000010010000")
    by (vm_compute; reflexivity).
  split; [exact Hcode|].
  exact (codeCInstruction_abit _ _ Hcode).
Defined.

(** ** Runs of [code] on a buffer *)

Lemma emit_ok_encodable `{Writer W} (instructions : list instruction) :
  ∀ (t : gmap string Z) (n : Z) (w w' : W),
  emit instructions t n w = (w', None) → Forall encodable instructions.
Proof.
  induction instructions as [|[a|c|l] rest IH]; intros t n w w'.
  - by constructor.
  - rewrite emit_A. cbv zeta. destruct (negb _); [done|].
    destruct (Write w _).2.2; [done|].
    intros Hrun. constructor; [done | by apply IH in Hrun].
  - rewrite emit_C. destruct (codeCInstruction c) as [code|err] eqn:Hc; [|done].
    cbv zeta. destruct (negb _); [done|].
    destruct (Write w _).2.2; [done|].
    intros Hrun. constructor; [by exists code | by apply IH in Hrun].
  - simpl. intros Hrun. constructor; [done | by apply IH in Hrun].
Qed.

(** On a buffer, [code] succeeds exactly on the sequences whose labels are
    declared once and are not reserved and whose C-instructions have their
    mnemonics in the tables. *)
Theorem code_Buffer_succeeds (instructions : list instruction) :
  Forall wellTyped instructions →
  (∃ out, code (W := Buffer) instructions "" = (out, None))
  ↔ NoDup (labelsOf instructions)
    ∧ Forall (λ x, ¬ reserved x) (labelsOf instructions)
    ∧ Forall encodable instructions.
Proof.
  intros Hwt. split.
  - intros [out Hrun]. destruct (code_ok_declared _ _ _ Hrun) as [t Ht].
    destruct (declare_inl _ _ _ _ isUint16_0 Ht) as (Hnd & Hnew & _).
    split; [done|]. split.
    + apply Forall_forall. intros x Hx. by destruct (Hnew x Hx).
    + rewrite (code_declared _ _ _ Ht) in Hrun.
      by apply emit_ok_encodable in Hrun.
  - intros (Hnd & Hres & Henc). by apply code_Buffer_ok.
Qed.

Lemma code_Buffer_succeeds_witness :
  Forall wellTyped prog_LabelUse
  ∧ ∃ out, code (W := Buffer) prog_LabelUse "" = (out, None).
Proof.
  assert (Hwt : Forall wellTyped prog_LabelUse).
  { repeat constructor; simpl; unfold isUint16; lia. }
  split; [exact Hwt|].
  apply (code_Buffer_succeeds prog_LabelUse Hwt).
  split; [apply (bool_decide_unpack _); vm_compute; exact I|].
  split; [apply (bool_decide_unpack _); vm_compute; exact I|].
  repeat constructor. eexists. vm_compute. reflexivity.
Defined.

Lemma zeros_isBinary (n : nat) : isBinary (Fmt.zeros n) = true.
Proof. induction n as [|k IH]; [done|]. unfold isBinary in *. simpl. done. Qed.

Lemma bits_isBinary (p : positive) : isBinary (Fmt.bits p) = true.
Proof.
  induction p as [p IH|p IH|]; simpl; [| |done];
    by rewrite isBinary_app, IH.
Qed.

Lemma b016_isBinary (v : Z) : isBinary (Fmt.b016 v) = true.
Proof.
  unfold Fmt.b016. rewrite isBinary_app, zeros_isBinary.
  destruct v; simpl; [done | apply bits_isBinary | done].
Qed.

Lemma unlines_cons (l : string) (ls : list string) :
  unlines (l :: ls) = l +:+ nl +:+ unlines ls.
Proof. reflexivity. Qed.

Lemma emit_lines (instructions : list instruction) :
  ∀ (t : gmap string Z) (n : Z) (out : Buffer),
  emit (W := Buffer) instructions t n "" = (out, None) →
  ∃ ls, out = unlines ls
        ∧ Z.of_nat (length ls) = pcOf instructions
        ∧ Forall (λ l, String.length l = 16%nat ∧ isBinary l = true) ls.
Proof.
  induction instructions as [|[a|c|l] rest IH]; intros t n out Hrun.
  - simpl in Hrun. injection Hrun as <-. exists []. by repeat split.
  - rewrite emit_A in Hrun. cbv zeta in Hrun.
    rewrite Buffer_Write in Hrun. simpl fst in Hrun. simpl snd in Hrun.
    rewrite str_app_empty_l in Hrun.
    revert Hrun. destruct (len _ =? 17) eqn:Hlen; simpl; intros Hrun; [|done].
    apply Z.eqb_eq in Hlen.
    rewrite emit_Buffer in Hrun.
    destruct (emit (W := Buffer) rest _ _ "") as [o r] eqn:Hrest.
    simpl in Hrun. injection Hrun as <- ->.
    destruct (IH _ _ _ Hrest) as (ls & -> & Hcount & Hall).
    exists (Fmt.b016 (Value (resolve a t n).1.1) :: ls).
    split; [by rewrite unlines_cons, !str_app_assoc|].
    split; [simpl length; simpl pcOf; lia|].
    constructor; [|done]. split; [|apply b016_isBinary].
    unfold len in Hlen. rewrite str_length_app in Hlen. simpl in Hlen. lia.
  - rewrite emit_C in Hrun.
    destruct (codeCInstruction c) as [code|err] eqn:Hcode; [|done].
    cbv zeta in Hrun.
    rewrite Buffer_Write in Hrun. simpl fst in Hrun. simpl snd in Hrun.
    rewrite str_app_empty_l in Hrun.
    revert Hrun. destruct (len _ =? 17) eqn:Hlen; simpl; intros Hrun; [|done].
    rewrite emit_Buffer in Hrun.
    destruct (emit (W := Buffer) rest _ _ "") as [o r] eqn:Hrest.
    simpl in Hrun. injection Hrun as <- ->.
    destruct (IH _ _ _ Hrest) as (ls & -> & Hcount & Hall).
    exists (code :: ls). split; [by rewrite unlines_cons, !str_app_assoc|].
    split; [simpl length; simpl pcOf; lia|].
    constructor; [|done].
    destruct (codeCInstruction_word _ _ Hcode) as (Hl & _ & Hb). done.
  - simpl in Hrun. by apply IH in Hrun.
Qed.

(** The output of a run that succeeds is one line for every instruction
    that is no label, and each line is 16 binary digits and a line feed. *)
Theorem code_output_lines (instructions : list instruction) (out : Buffer) :
  code (W := Buffer) instructions "" = (out, None) →
  ∃ ls, out = unlines ls
        ∧ Z.of_nat (length ls) = pcOf instructions
        ∧ Forall (λ l, String.length l = 16%nat ∧ isBinary l = true) ls.
Proof.
  intros Hrun. destruct (code_ok_declared _ _ _ Hrun) as [t Ht].
  rewrite (code_declared _ _ _ Ht) in Hrun. by apply emit_lines in Hrun.
Qed.

Lemma code_output_lines_witness :
  code (W := Buffer) prog_LabelUse ""
  = (unlines ["0000000000000010"; "0000000000001111"; "1110110000010000"],
     None)
  ∧ ∃ ls,
      unlines ["0000000000000010"; "0000000000001111"; "1110110000010000"]
      = unlines ls
      ∧ Z.of_nat (length ls) = pcOf prog_LabelUse
      ∧ Forall (λ l, String.length l = 16%nat ∧ isBinary l = true) ls.
Proof.
  assert (Hrun : code (W := Buffer) prog_LabelUse ""
    = (unlines ["0000000000000010"; "0000000000001111"; "1110110000010000"],
       None)) by (vm_compute; reflexivity).
  split; [exact Hrun|].
  exact (code_output_lines _ _ Hrun).
Defined.

(** A predefined symbol resolves to its value in the table of predefined
    symbols wherever it is used: no label and no variable takes its
    place. *)
Theorem predefined_resolution (instructions pre post : list instruction)
    (a : aInstruction) (v : Z) (out : Buffer) :
  code (W := Buffer) instructions "" = (out, None) →
  instructions = pre ++ AIns a :: post →
  IsSymbol a = true →
  predefinedSymbols !! Literal a = Some v →
  resolvedValue instructions pre a = Some v
  ∧ ∃ before after,
      out = before +:+ (binary16 v +:+ nl) +:+ after
      ∧ len before = 17 * pcOf pre.
Proof.
  intros Hrun Hsplit Hsym Hv.
  destruct (code_ok_declared _ _ _ Hrun) as [t Ht].
  assert (Hvalue : resolvedValue instructions pre a = Some v).
  { rewrite (resolvedValue_declared _ _ _ _ Ht).
    erewrite resolve_bound; [done | done |].
    apply resolved_keeps. by apply lookup_union_Some_l. }
  split; [done|].
  rewrite Hsplit in Hrun.
  destruct (code_line _ _ _ _ Hrun)
    as (v' & before & after & Hv' & -> & Hlen & Hu & _).
  rewrite <- Hsplit, Hvalue in Hv'. injection Hv' as <-.
  exists before, after. split; [|done].
  rewrite b016_binary16; [done|]. apply Hu. congruence.
Qed.

Lemma predefined_resolution_witness :
  code (W := Buffer) prog_LabelUse ""
  = (unlines ["0000000000000010"; "0000000000001111"; "1110110000010000"],
     None)
  ∧ resolvedValue prog_LabelUse [AIns (mkA "OUTPUT" true 0)]
      (mkA "R15" true 0) = Some 15.
Proof.
  assert (Hrun : code (W := Buffer) prog_LabelUse ""
    = (unlines ["0000000000000010"; "0000000000001111"; "1110110000010000"],
       None)) by (vm_compute; reflexivity).
  split; [exact Hrun|].
  assert (Hv : predefinedSymbols !! "R15" = Some 15) by (vm_compute; reflexivity).
  exact (proj1 (predefined_resolution prog_LabelUse
                  [AIns (mkA "OUTPUT" true 0)]
                  [Lbl (mkLabel "OUTPUT"); CIns (mkC "D" "A" "")]
                  (mkA "R15" true 0) 15 _ Hrun eq_refl eq_refl Hv)).
Defined.

(** ** What the parser returns *)

Lemma parseAInstruction_fromParser `{Unicode.RangeTables}
    (in_ : string) (a : aInstruction) :
  parseAInstruction in_ = inl a →
  Literal a = Str.from 1 in_ ∧ fromParser (AIns a).
Proof.
  unfold parseAInstruction.
  destruct (len in_ <? 2) eqn:Hlen; [done|].
  assert (Hrest : Str.from 1 in_ ≠ "").
  { destruct in_ as [|c [|d rest]]; [done | done | by simpl]. }
  rewrite IsDigit_byte.
  destruct (isDecimalDigit (head (Str.from 1 in_))) eqn:Hdigit.
  - pose proof (ParseUint_decimal (Str.from 1 in_)) as Hparse.
    destruct (Strconv.ParseUint _ _ _) as [v|e]; [|done].
    destruct Hparse as [Hv Hle]. intros [= <-].
    cbn [fromParser Literal IsSymbol Value].
    rewrite uint16_id by (unfold isUint16; lia).
    split; [done|]. split; [done|]. split; [exact Hdigit|].
    split; [exact Hv | exact Hle].
  - destruct (containsOnly _ _) eqn:Hvalid; [|done].
    intros [= <-]. cbn [fromParser Literal IsSymbol Value].
    split; [done|]. split; [done|]. split; [done|].
    split; [exact Hdigit | exact Hvalid].
Qed.

Lemma parseLabel_fromParser `{Unicode.RangeTables}
    (in_ : string) (l : label) :
  parseLabel in_ = inl l →
  labelLiteral l = Strings.Trim in_ "()" ∧ fromParser (Lbl l).
Proof.
  unfold parseLabel. destruct (len in_ <? 3); [done|].
  destruct (negb _); [done|]. destruct (negb _); [done|].
  destruct (containsOnly _ _) eqn:Hvalid; [|done].
  by intros [= <-].
Qed.

Lemma parseLines_fromParser `{Unicode.RangeTables} (texts : list string) :
  ∀ instructions result,
  Forall fromParser instructions →
  parseLines texts instructions = inl result →
  Forall fromParser result.
Proof.
  induction texts as [|text texts IH]; intros instructions result Hall; simpl.
  { by intros [= <-]. }
  destruct (Strings.Cut text "//") as [[line after] found].
  destruct (len _ =? 0); [by apply IH|].
  destruct (Ascii.eqb _ "@").
  { destruct (parseAInstruction _) as [ins|err] eqn:Hp; [|done].
    apply IH, Forall_app. split; [done|]. constructor; [|done].
    by destruct (parseAInstruction_fromParser _ _ Hp). }
  destruct (Ascii.eqb _ "(").
  { destruct (parseLabel _) as [ins|err] eqn:Hp; [|done].
    apply IH, Forall_app. split; [done|]. constructor; [|done].
    by destruct (parseLabel_fromParser _ _ Hp). }
  destruct (parseCInstruction_total (Strings.TrimSpace line)) as [ins ->].
  apply IH, Forall_app. split; [done|]. by repeat constructor.
Qed.

Lemma fromParser_wellTyped `{Unicode.RangeTables} (i : instruction) :
  fromParser i → wellTyped i.
Proof.
  destruct i as [a|c|l]; simpl; [|done..].
  intros [_ Ha]. unfold isUint16.
  destruct (IsSymbol a); [destruct Ha as (-> & _); lia | lia].
Qed.

(** Every instruction parse returns is well formed: an A-instruction has a
    literal that is not empty, and is either a constant, whose literal is a
    decimal numeral of value at most 32767, or a symbol of value 0 that
    does not start with a digit and has valid characters only; a label has
    valid characters only.  In particular the values fit 16 bits. *)
Theorem parse_fromParser `{Unicode.RangeTables}
    (r : string) (instructions : list instruction) :
  parse r = inl instructions →
  Forall fromParser instructions ∧ Forall wellTyped instructions.
Proof.
  intros Hparse.
  assert (Hall : Forall fromParser instructions)
    by (apply (parseLines_fromParser _ [] _ ltac:(constructor) Hparse)).
  split; [done|].
  eapply Forall_impl; [exact Hall|]. apply fromParser_wellTyped.
Qed.

Lemma parse_fromParser_witness :
  parse (H := Latin1) prog_Add
  = inl [AIns (mkA "2" false 2); CIns (mkC "D" "A" "");
         AIns (mkA "3" false 3); CIns (mkC "D" "D+A" "");
         AIns (mkA "0" false 0); CIns (mkC "M" "D" "")]
  ∧ Forall wellTyped
      [AIns (mkA "2" false 2); CIns (mkC "D" "A" "");
       AIns (mkA "3" false 3); CIns (mkC "D" "D+A" "");
       AIns (mkA "0" false 0); CIns (mkC "M" "D" "")].
Proof.
  assert (Hparse : parse (H := Latin1) prog_Add
    = inl [AIns (mkA "2" false 2); CIns (mkC "D" "A" "");
           AIns (mkA "3" false 3); CIns (mkC "D" "D+A" "");
           AIns (mkA "0" false 0); CIns (mkC "M" "D" "")])
    by (vm_compute; reflexivity).
  split; [exact Hparse|].
  exact (proj2 (parse_fromParser (H := Latin1) _ _ Hparse)).
Defined.

(** ** Parsing line by line *)

Lemma occurs_cons (c d : ascii) (s : string) :
  occurs c (String d s) = Ascii.eqb c d || occurs c s.
Proof. reflexivity. Qed.

Lemma len_cons (c : ascii) (s : string) : len (String c s) = 1 + len s.
Proof. unfold len. simpl String.length. lia. Qed.

(** The scanner on a line of less than [MaxScanTokenSize] bytes: followed
    by a line feed, the line is a token and the scan goes on behind it; at
    the end of the text, the line is the last token unless it is empty. *)
Lemma scanLines_line (r : string) (l : string) :
  ∀ (line : string) (n : Z),
  occurs LF l = false → 0 ≤ n → n + len l < Bufio.MaxScanTokenSize →
  Bufio.scanLines (l +:+ String LF r) line n
  = Bufio.dropCR (Str.revOnto l line) :: Bufio.scanLines r "" 0
  ∧ Bufio.scanLines l line n
    = if n + len l =? 0 then [] else [Bufio.dropCR (Str.revOnto l line)].
Proof.
  induction l as [|c l IH]; intros line n Hlf Hn Hshort.
  - rewrite str_app_empty_l. simpl. unfold len. simpl.
    by rewrite Z.add_0_r.
  - rewrite occurs_cons in Hlf. apply orb_false_elim in Hlf as [Hc Hlf].
    rewrite Ascii.eqb_sym in Hc. rewrite len_cons in Hshort.
    pose proof (len_nonneg l) as Hl.
    rewrite str_app_cons. simpl Bufio.scanLines. rewrite Hc.
    assert (Hfits : Bufio.MaxScanTokenSize <=? n + 1 = false)
      by (apply Z.leb_gt; lia).
    rewrite Hfits.
    destruct (IH (String c line) (n + 1) Hlf ltac:(lia) ltac:(lia))
      as [-> ->].
    split; [done|]. rewrite len_cons.
    replace (n + 1 + len l =? 0) with false by (symmetry; apply Z.eqb_neq; lia).
    replace (n + (1 + len l) =? 0) with false
      by (symmetry; apply Z.eqb_neq; lia).
    done.
Qed.

(** The scanner gives up on [MaxScanTokenSize] bytes without a line feed. *)
Lemma scanLines_overlong (r : string) (l : string) :
  ∀ (line : string) (n : Z),
  occurs LF l = false → 0 ≤ n < Bufio.MaxScanTokenSize →
  Bufio.MaxScanTokenSize ≤ n + len l →
  Bufio.scanLines (l +:+ r) line n = [].
Proof.
  induction l as [|c l IH]; intros line n Hlf Hn Hlong.
  - unfold len in Hlong. simpl in Hlong. lia.
  - rewrite occurs_cons in Hlf. apply orb_false_elim in Hlf as [Hc Hlf].
    rewrite Ascii.eqb_sym in Hc. rewrite len_cons in Hlong.
    rewrite str_app_cons. simpl Bufio.scanLines. rewrite Hc.
    destruct (Bufio.MaxScanTokenSize <=? n + 1) eqn:Hfits; [done|].
    apply Z.leb_gt in Hfits. apply IH; [done | lia | lia].
Qed.

(** The instructions appended so far do not influence the lines to come. *)
Lemma parseLines_acc `{Unicode.RangeTables} (texts : list string) :
  ∀ instructions,
  parseLines texts instructions
  = match parseLines texts [] with
    | inl new => inl (instructions ++ new)
    | inr e => inr e
    end.
Proof.
  induction texts as [|text texts IH]; intros instructions; simpl.
  { by rewrite app_nil_r. }
  destruct (Strings.Cut text "//") as [[line after] found].
  destruct (len _ =? 0); [apply IH|].
  assert (Hstep : ∀ i, parseLines texts (instructions ++ [i])
            = match parseLines texts ([] ++ [i]) with
              | inl new => inl (instructions ++ new)
              | inr e => inr e
              end).
  { intros i. rewrite (IH (instructions ++ [i])), (IH ([] ++ [i])).
    destruct (parseLines texts []) as [new|e]; [|done].
    by rewrite <- app_assoc. }
  destruct (Ascii.eqb _ "@").
  { destruct (parseAInstruction _) as [ins|err]; [apply Hstep | done]. }
  destruct (Ascii.eqb _ "(").
  { destruct (parseLabel _) as [ins|err]; [apply Hstep | done]. }
  destruct (parseCInstruction _) as [ins|err]; [apply Hstep | done].
Qed.

Lemma parseLines_app `{Unicode.RangeTables} (texts1 texts2 : list string) :
  ∀ instructions,
  parseLines (texts1 ++ texts2) instructions
  = match parseLines texts1 instructions with
    | inl mid => parseLines texts2 mid
    | inr e => inr e
    end.
Proof.
  induction texts1 as [|text texts1 IH]; intros instructions; [done|].
  simpl. destruct (Strings.Cut text "//") as [[line after] found].
  destruct (len _ =? 0); [apply IH|].
  destruct (Ascii.eqb _ "@").
  { destruct (parseAInstruction _) as [ins|err]; [apply IH | done]. }
  destruct (Ascii.eqb _ "(").
  { destruct (parseLabel _) as [ins|err]; [apply IH | done]. }
  destruct (parseCInstruction _) as [ins|err]; [apply IH | done].
Qed.

(** parse works line by line: the instructions of a text are those of its
    first line followed by those of the rest, and an error in the first
    line is returned whatever follows it.  The first line is to be shorter
    than the scanner's buffer. *)
Theorem parse_line_by_line `{Unicode.RangeTables} (l r : string) :
  occurs LF l = false → len l < Bufio.MaxScanTokenSize →
  parse (l +:+ nl +:+ r)
  = match parse l with
    | inr e => inr e
    | inl first =>
      match parse r with
      | inr e => inr e
      | inl rest => inl (first ++ rest)
      end
    end.
Proof.
  intros Hlf Hshort. unfold parse, Bufio.Scan.
  change (nl +:+ r) with (String LF r).
  destruct (scanLines_line r l "" 0 Hlf ltac:(lia) ltac:(lia)) as [-> ->].
  rewrite Z.add_0_l.
  change (?x :: Bufio.scanLines r "" 0) with ([x] ++ Bufio.scanLines r "" 0).
  rewrite parseLines_app.
  destruct (len l =? 0) eqn:Hempty.
  - apply Z.eqb_eq in Hempty.
    assert (l = "") as ->.
    { destruct l; [done|]. rewrite len_cons in Hempty.
      pose proof (len_nonneg l). lia. }
    change (parseLines [Bufio.dropCR (Str.revOnto "" "")] [])
      with (parseLines [] []).
    simpl. by destruct (parseLines _ []).
  - destruct (parseLines [_] []) as [first|e]; [|done].
    rewrite (parseLines_acc _ first). by destruct (parseLines _ []).
Qed.

Lemma parse_line_by_line_witness :
  occurs LF "@2" = false ∧ len "@2" < Bufio.MaxScanTokenSize
  ∧ parse (H := Latin1) ("@2" +:+ nl +:+ "D=A")
    = match parse (H := Latin1) "@2" with
      | inr e => inr e
      | inl first =>
        match parse (H := Latin1) "D=A" with
        | inr e => inr e
        | inl rest => inl (first ++ rest)
        end
      end.
Proof.
  assert (Hlf : occurs LF "@2" = false) by reflexivity.
  assert (Hshort : len "@2" < Bufio.MaxScanTokenSize) by reflexivity.
  split; [exact Hlf|]. split; [exact Hshort|].
  exact (parse_line_by_line (H := Latin1) "@2" "D=A" Hlf Hshort).
Defined.

(** A line of [MaxScanTokenSize] bytes or more ends the scan: parse
    returns no instruction for it or for anything behind it, and no error
    (the scanner's error is not looked at). *)
Theorem parse_overlong_line `{Unicode.RangeTables} (l r : string) :
  occurs LF l = false → Bufio.MaxScanTokenSize ≤ len l →
  parse (l +:+ r) = inl [].
Proof.
  intros Hlf Hlong. unfold parse, Bufio.Scan.
  by rewrite scanLines_overlong by (done || by vm_compute || lia).
Qed.

Lemma zeros_len (n : nat) : len (Fmt.zeros n) = Z.of_nat n.
Proof.
  induction n as [|k IH]; [done|].
  change (Fmt.zeros (S k)) with (String "0" (Fmt.zeros k)).
  rewrite len_cons, IH. lia.
Qed.

Lemma zeros_no_LF (n : nat) : occurs LF (Fmt.zeros n) = false.
Proof.
  induction n as [|k IH]; [done|].
  change (Fmt.zeros (S k)) with (String "0" (Fmt.zeros k)).
  rewrite occurs_cons, IH. reflexivity.
Qed.

Lemma parse_overlong_line_witness :
  occurs LF (Fmt.zeros (Z.to_nat Bufio.MaxScanTokenSize)) = false
  ∧ Bufio.MaxScanTokenSize ≤ len (Fmt.zeros (Z.to_nat Bufio.MaxScanTokenSize))
  ∧ parse (H := Latin1)
      (Fmt.zeros (Z.to_nat Bufio.MaxScanTokenSize) +:+ nl +:+ "@2")
    = inl [].
Proof.
  assert (Hlf : occurs LF (Fmt.zeros (Z.to_nat Bufio.MaxScanTokenSize)) = false)
    by apply zeros_no_LF.
  assert (Hlong : Bufio.MaxScanTokenSize
                  ≤ len (Fmt.zeros (Z.to_nat Bufio.MaxScanTokenSize))).
  { rewrite zeros_len, Z2Nat.id; [lia | by vm_compute]. }
  split; [exact Hlf|]. split; [exact Hlong|].
  exact (parse_overlong_line (H := Latin1) _ (nl +:+ "@2") Hlf Hlong).
Defined.

(** ** Bytes and slices *)

Lemma occurs_app (c : ascii) (s t : string) :
  occurs c (s +:+ t) = occurs c s || occurs c t.
Proof.
  induction s as [|d s IH]; [done|].
  rewrite str_app_cons, !occurs_cons, IH. by rewrite orb_assoc.
Qed.

Lemma isBlank_cons (c : ascii) (s : string) :
  isBlank (String c s) = asciiSpace c && isBlank s.
Proof. reflexivity. Qed.

Lemma isBlank_app (s t : string) :
  isBlank (s +:+ t) = isBlank s && isBlank t.
Proof.
  induction s as [|d s IH]; [done|].
  rewrite str_app_cons, !isBlank_cons, IH. by rewrite andb_assoc.
Qed.

Lemma revOnto_app (s t acc : string) :
  Str.revOnto (s +:+ t) acc = Str.revOnto t (Str.revOnto s acc).
Proof.
  revert acc. induction s as [|c s IH]; intros acc; [done|].
  rewrite str_app_cons. simpl. apply IH.
Qed.

Lemma revOnto_acc (s acc : string) :
  Str.revOnto s acc = Str.reverse s +:+ acc.
Proof.
  revert acc. induction s as [|c s IH]; intros acc; [done|].
  unfold Str.reverse. simpl.
  rewrite (IH (String c acc)), (IH (String c "")).
  by rewrite str_app_assoc.
Qed.

Lemma reverse_app (s t : string) :
  Str.reverse (s +:+ t) = Str.reverse t +:+ Str.reverse s.
Proof. unfold Str.reverse at 1. by rewrite revOnto_app, revOnto_acc. Qed.

Lemma reverse_cons (c : ascii) (s : string) :
  Str.reverse (String c s) = Str.reverse s +:+ String c "".
Proof. unfold Str.reverse at 1. simpl. apply revOnto_acc. Qed.

Lemma reverse_involutive (s : string) : Str.reverse (Str.reverse s) = s.
Proof.
  induction s as [|c s IH]; [done|].
  by rewrite reverse_cons, reverse_app, IH.
Qed.

Lemma reverse_length (s : string) :
  String.length (Str.reverse s) = String.length s.
Proof.
  induction s as [|c s IH]; [done|].
  rewrite reverse_cons, str_length_app, IH. simpl. lia.
Qed.

Lemma isBlank_reverse (s : string) : isBlank (Str.reverse s) = isBlank s.
Proof.
  induction s as [|c s IH]; [done|].
  rewrite reverse_cons, isBlank_app, IH, isBlank_cons.
  change (isBlank (String c "")) with (asciiSpace c && true).
  rewrite andb_true_r. apply andb_comm.
Qed.

(** A string is empty or ends in a byte. *)
Lemma str_snoc (s : string) : s = "" ∨ ∃ s' d, s = s' +:+ String d "".
Proof.
  destruct (Str.reverse s) as [|d r] eqn:Hr.
  - left. by rewrite <- (reverse_involutive s), Hr.
  - right. exists (Str.reverse r), d.
    by rewrite <- (reverse_involutive s), Hr, reverse_cons.
Qed.

Lemma last_snoc (s : string) (d : ascii) :
  Str.last (s +:+ String d "") = Some d.
Proof.
  induction s as [|c s IH]; [done|].
  rewrite str_app_cons. simpl. rewrite IH.
  by destruct (s +:+ String d "") eqn:Hs; [destruct s; discriminate|].
Qed.

Lemma last_reverse (s : string) (d : ascii) :
  Str.last s = Some d → ∃ r, Str.reverse s = String d r.
Proof.
  intros Hlast. destruct (str_snoc s) as [->|(s' & d' & ->)]; [done|].
  rewrite last_snoc in Hlast. injection Hlast as ->.
  exists (Str.reverse s'). by rewrite reverse_app.
Qed.

Lemma upto_app (s t : string) : Str.upto (String.length s) (s +:+ t) = s.
Proof.
  induction s as [|c s IH]; [done|].
  rewrite str_app_cons. simpl. by rewrite IH.
Qed.

Lemma from_app (s t : string) (n : nat) :
  Str.from (String.length s + n) (s +:+ t) = Str.from n t.
Proof.
  induction s as [|c s IH]; [done|].
  rewrite str_app_cons. simpl. apply IH.
Qed.

(** ** Cutting at a separator *)

Lemma prefix_app (sep t : string) : String.prefix sep (sep +:+ t) = true.
Proof.
  induction sep as [|c sep IH]; [by destruct t|].
  rewrite str_app_cons. simpl. by destruct (ascii_dec c c).
Qed.

Lemma Index_absent (c : ascii) (sep s : string) :
  occurs c s = false → Strings.Index s (String c sep) = None.
Proof.
  induction s as [|d s IH]; intros Hc; [done|].
  rewrite occurs_cons in Hc. apply orb_false_elim in Hc as [Hd Hc].
  apply Ascii.eqb_neq in Hd.
  simpl. destruct (ascii_dec c d) as [->|_]; [done|].
  by rewrite (IH Hc).
Qed.

Lemma Index_first (c : ascii) (sep s t : string) :
  occurs c s = false →
  Strings.Index (s +:+ String c sep +:+ t) (String c sep)
  = Some (String.length s).
Proof.
  induction s as [|d s IH]; intros Hc.
  - rewrite str_app_empty_l.
    pose proof (prefix_app (String c sep) t) as Hp.
    rewrite str_app_cons in *. simpl in *. by rewrite Hp.
  - rewrite occurs_cons in Hc. apply orb_false_elim in Hc as [Hd Hc].
    apply Ascii.eqb_neq in Hd.
    rewrite str_app_cons. simpl. destruct (ascii_dec c d) as [->|_]; [done|].
    by rewrite (IH Hc).
Qed.

(** Without the separator's first byte in it, the text is not cut. *)
Lemma Cut_absent (c : ascii) (sep s : string) :
  occurs c s = false → Strings.Cut s (String c sep) = (s, "", false).
Proof. intros Hc. unfold Strings.Cut. by rewrite (Index_absent _ _ _ Hc). Qed.

(** The text is cut at the first separator. *)
Lemma Cut_first (c : ascii) (sep s t : string) :
  occurs c s = false →
  Strings.Cut (s +:+ String c sep +:+ t) (String c sep) = (s, t, true).
Proof.
  intros Hc. unfold Strings.Cut. rewrite (Index_first _ _ _ _ Hc).
  rewrite upto_app, from_app.
  replace (String.length (String c sep))
    with (String.length (String c sep) + 0)%nat by lia.
  by rewrite from_app.
Qed.

(** ** Trimming white space *)

Lemma byte_nonneg (c : ascii) : 0 ≤ byte c.
Proof. unfold byte. lia. Qed.

Lemma asciiSpace_ascii (c : ascii) :
  asciiSpace c = true → byte c <? Utf8.RuneSelf = true.
Proof.
  unfold asciiSpace, within, Utf8.RuneSelf. intros Hc. apply Z.ltb_lt.
  apply orb_prop in Hc as [Hc|Hc].
  - apply andb_prop in Hc as [_ Hc]. apply Z.leb_le in Hc. lia.
  - apply Z.eqb_eq in Hc. lia.
Qed.

(** On ASCII, the White_Space property is the ASCII white space. *)
Lemma IsSpace_ascii (c : ascii) :
  byte c <? Utf8.RuneSelf = true → Unicode.IsSpace (byte c) = asciiSpace c.
Proof.
  unfold Utf8.RuneSelf. intros Hc. apply Z.ltb_lt in Hc.
  pose proof (byte_nonneg c) as H0.
  unfold Unicode.IsSpace, asciiSpace, Unicode.MaxLatin1.
  replace (within 0 255 (byte c)) with true
    by (symmetry; unfold within; apply andb_true_intro;
        split; apply Z.leb_le; lia).
  replace (byte c =? 133) with false by (symmetry; apply Z.eqb_neq; lia).
  replace (byte c =? 160) with false by (symmetry; apply Z.eqb_neq; lia).
  by rewrite !orb_false_r.
Qed.

Lemma Decode_ascii (c : ascii) (s : string) :
  byte c <? Utf8.RuneSelf = true →
  Utf8.DecodeRuneInString (String c s) = (byte c, 1%nat).
Proof. intros Hc. unfold Utf8.DecodeRuneInString. cbv zeta. by rewrite Hc. Qed.

Lemma DecodeLast_ascii (c : ascii) (r : string) :
  byte c <? Utf8.RuneSelf = true →
  Utf8.DecodeLastRuneInString (String c r) = (byte c, 1%nat).
Proof. intros Hc. unfold Utf8.DecodeLastRuneInString. by rewrite Hc. Qed.

Lemma solid_ascii (c : ascii) :
  solid c = true →
  byte c <? Utf8.RuneSelf = true ∧ Unicode.IsSpace (byte c) = false.
Proof.
  unfold solid. intros Hc. apply andb_prop in Hc as [Hascii Hc].
  split; [done|]. rewrite (IsSpace_ascii _ Hascii).
  by apply negb_true_iff.
Qed.

Lemma trimLeftSpace_blank (ws s : string) :
  ∀ steps, isBlank ws = true → (String.length ws ≤ steps)%nat →
  solidStart s → Strings.trimLeftSpace steps (ws +:+ s) = s.
Proof.
  induction ws as [|w ws IH]; intros steps Hws Hsteps Hs.
  - rewrite str_app_empty_l. destruct steps as [|k]; [done|].
    destruct Hs as [->|(c & s' & -> & Hc)]; [done|].
    apply solid_ascii in Hc as [Hascii Hc].
    cbn [Strings.trimLeftSpace]. by rewrite (Decode_ascii _ _ Hascii), Hc.
  - rewrite isBlank_cons in Hws. apply andb_prop in Hws as [Hw Hws].
    destruct steps as [|k]; [simpl in Hsteps; lia|].
    pose proof (asciiSpace_ascii _ Hw) as Hascii.
    rewrite str_app_cons. cbn [Strings.trimLeftSpace].
    rewrite (Decode_ascii _ _ Hascii), (IsSpace_ascii _ Hascii), Hw.
    cbn [Str.from]. apply IH; [done | simpl in Hsteps; lia | done].
Qed.

Lemma trimRightSpace_blank (ws r : string) :
  ∀ steps, isBlank ws = true → (String.length ws ≤ steps)%nat →
  solidStart r → Strings.trimRightSpace steps (ws +:+ r) = r.
Proof.
  induction ws as [|w ws IH]; intros steps Hws Hsteps Hr.
  - rewrite str_app_empty_l. destruct steps as [|k]; [done|].
    destruct Hr as [->|(c & r' & -> & Hc)]; [done|].
    apply solid_ascii in Hc as [Hascii Hc].
    cbn [Strings.trimRightSpace].
    by rewrite (DecodeLast_ascii _ _ Hascii), Hc.
  - rewrite isBlank_cons in Hws. apply andb_prop in Hws as [Hw Hws].
    destruct steps as [|k]; [simpl in Hsteps; lia|].
    pose proof (asciiSpace_ascii _ Hw) as Hascii.
    rewrite str_app_cons. cbn [Strings.trimRightSpace].
    rewrite (DecodeLast_ascii _ _ Hascii), (IsSpace_ascii _ Hascii), Hw.
    cbn [Str.from]. apply IH; [done | simpl in Hsteps; lia | done].
Qed.

(** TrimSpace takes the ASCII white space off both ends of a text that
    does not start or end with white space itself. *)
Lemma TrimSpace_blank (ws1 l ws2 : string) :
  isBlank ws1 = true → isBlank ws2 = true → untrimmable l →
  Strings.TrimSpace (ws1 +:+ l +:+ ws2) = l.
Proof.
  intros Hws1 Hws2 Hl. unfold Strings.TrimSpace.
  destruct Hl as [->|(c & d & Hfirst & Hlast & Hc & Hd)].
  - rewrite str_app_empty_l, <- (str_app_empty_r (ws1 +:+ ws2)).
    rewrite (trimLeftSpace_blank (ws1 +:+ ws2) "");
      [done | by rewrite isBlank_app, Hws1, Hws2
       | by rewrite str_app_empty_r | by left].
  - destruct l as [|c' l']; [done|]. injection Hfirst as ->.
    rewrite (trimLeftSpace_blank ws1 (String c l' +:+ ws2)); [|done| |].
    2: { rewrite str_length_app. lia. }
    2: { right. exists c, (l' +:+ ws2). by rewrite str_app_cons. }
    destruct (last_reverse _ _ Hlast) as [r Hr].
    rewrite reverse_app, Hr.
    rewrite (trimRightSpace_blank (Str.reverse ws2) (String d r)).
    + by rewrite <- Hr, reverse_involutive.
    + by rewrite isBlank_reverse.
    + rewrite reverse_length, str_length_app. lia.
    + right. by exists d, r.
Qed.

(** ** The layout of a line *)

Lemma dropCR_cons (d : ascii) (r : string) :
  Bufio.dropCR (String d r)
  = if Ascii.eqb d CR then Str.reverse r else Str.reverse (String d r).
Proof. by destruct d as [[] [] [] [] [] [] [] []]. Qed.

(** The scanner drops one carriage return at the end of a line. *)
Lemma dropCR_snoc (s : string) (d : ascii) :
  Bufio.dropCR (Str.reverse (s +:+ String d ""))
  = if Ascii.eqb d CR then s else s +:+ String d "".
Proof.
  rewrite reverse_app.
  change (Str.reverse (String d "") +:+ Str.reverse s)
    with (String d (Str.reverse s)).
  rewrite dropCR_cons. destruct (Ascii.eqb d CR).
  - apply reverse_involutive.
  - by rewrite reverse_cons, reverse_involutive.
Qed.

Lemma solid_not_CR (d : ascii) : solid d = true → Ascii.eqb d CR = false.
Proof.
  intros Hd. destruct (Ascii.eqb_spec d CR) as [->|]; [|done].
  by vm_compute in Hd.
Qed.

Lemma blank_no_slash (s : string) : isBlank s = true → occurs "/" s = false.
Proof.
  induction s as [|c s IH]; [done|].
  rewrite isBlank_cons, occurs_cons. intros Hs.
  apply andb_prop in Hs as [Hc Hs]. rewrite (IH Hs), orb_false_r.
  destruct (Ascii.eqb_spec "/" c) as [<-|]; [|done].
  by vm_compute in Hc.
Qed.

(** What the scanner hands over of a laid out line is laid out too. *)
Lemma laidOut_dropCR (l x : string) :
  untrimmable l → laidOut l x → laidOut l (Bufio.dropCR (Str.reverse x)).
Proof.
  intros Hl (ws1 & ws2 & tail & Hws1 & Hws2 & Htail & ->).
  destruct Htail as [->|[comment ->]].
  - destruct (str_snoc ws2) as [->|(w & d & ->)].
    + destruct (str_snoc l) as [->|(l' & d & ->)].
      * destruct (str_snoc ws1) as [->|(w & d & ->)].
        { exists "", "", "". split_and!; [done | done | by left | done]. }
        rewrite !str_app_empty_r, dropCR_snoc.
        rewrite isBlank_app in Hws1. apply andb_prop in Hws1 as [Hw Hd].
        destruct (Ascii.eqb d CR).
        -- exists w, "", "". split_and!; [done | done | by left|].
           by rewrite !str_app_empty_r.
        -- exists (w +:+ String d ""), "", "".
           split_and!; [by rewrite isBlank_app, Hw, Hd | done | by left|].
           by rewrite !str_app_empty_r.
      * rewrite !str_app_empty_r, <- str_app_assoc, dropCR_snoc.
        destruct Hl as [Hl|(c & d' & _ & Hlast & _ & Hd)].
        { by destruct l'. }
        rewrite last_snoc in Hlast. injection Hlast as <-.
        rewrite (solid_not_CR _ Hd).
        exists ws1, "", "". split_and!; [done | done | by left|].
        by rewrite !str_app_empty_r, str_app_assoc.
    + rewrite isBlank_app in Hws2. apply andb_prop in Hws2 as [Hw Hd].
      rewrite str_app_empty_r.
      replace (ws1 +:+ l +:+ w +:+ String d "")
        with ((ws1 +:+ l +:+ w) +:+ String d "")
        by (by rewrite !str_app_assoc).
      rewrite dropCR_snoc. destruct (Ascii.eqb d CR).
      * exists ws1, w, "". split_and!; [done | done | by left|].
        by rewrite !str_app_empty_r.
      * exists ws1, (w +:+ String d ""), "".
        split_and!; [done | by rewrite isBlank_app, Hw, Hd | by left|].
        by rewrite !str_app_empty_r, !str_app_assoc.
  - destruct (str_snoc comment) as [->|(c' & d & ->)].
    + replace (ws1 +:+ l +:+ ws2 +:+ "//" +:+ "")
        with ((ws1 +:+ l +:+ ws2 +:+ "/") +:+ String "/" "")
        by (by rewrite !str_app_assoc).
      rewrite dropCR_snoc. cbn [Ascii.eqb CR Bool.eqb].
      exists ws1, ws2, "//". split_and!; [done | done | right; by exists ""|].
      by rewrite !str_app_assoc.
    + replace (ws1 +:+ l +:+ ws2 +:+ "//" +:+ c' +:+ String d "")
        with ((ws1 +:+ l +:+ ws2 +:+ "//" +:+ c') +:+ String d "")
        by (by rewrite !str_app_assoc).
      rewrite dropCR_snoc. destruct (Ascii.eqb d CR).
      * exists ws1, ws2, ("//" +:+ c').
        split_and!; [done | done | right; by exists c' | done].
      * exists ws1, ws2, ("//" +:+ c' +:+ String d "").
        split_and!; [done | done | right; by eexists|].
        by rewrite !str_app_assoc.
Qed.

(** The command of a laid out line is the text it holds. *)
Lemma laidOut_commandOf (l x : string) :
  untrimmable l → occurs "/" l = false → laidOut l x → commandOf x = l.
Proof.
  intros Hl Hslash (ws1 & ws2 & tail & Hws1 & Hws2 & Htail & ->).
  assert (Hfree : occurs "/" (ws1 +:+ l +:+ ws2) = false).
  { rewrite !occurs_app, Hslash.
    by rewrite (blank_no_slash _ Hws1), (blank_no_slash _ Hws2). }
  unfold commandOf. destruct Htail as [->|[comment ->]].
  - rewrite !str_app_empty_r.
    change "//" with (String "/" "/"). rewrite (Cut_absent _ _ _ Hfree).
    by apply TrimSpace_blank.
  - replace (ws1 +:+ l +:+ ws2 +:+ "//" +:+ comment)
      with ((ws1 +:+ l +:+ ws2) +:+ String "/" "/" +:+ comment)
      by (by rewrite !str_app_assoc).
    rewrite (Cut_first _ _ _ _ Hfree). by apply TrimSpace_blank.
Qed.

(** [parse] looks at a line through its command only. *)
Lemma parseLines_commandOf `{Unicode.RangeTables} (text1 text2 : string)
    (rest : list string) (instructions : list instruction) :
  commandOf text1 = commandOf text2 →
  parseLines (text1 :: rest) instructions
  = parseLines (text2 :: rest) instructions.
Proof.
  unfold commandOf. intros Hcommand. cbn [parseLines].
  destruct (Strings.Cut text1 "//") as [[line1 after1] found1].
  destruct (Strings.Cut text2 "//") as [[line2 after2] found2].
  cbn [fst] in Hcommand. by rewrite Hcommand.
Qed.

Lemma Scan_line (l r : string) :
  occurs LF l = false → len l < Bufio.MaxScanTokenSize →
  Bufio.Scan (l +:+ nl +:+ r)
  = Bufio.dropCR (Str.reverse l) :: Bufio.Scan r.
Proof.
  intros Hlf Hshort. unfold Bufio.Scan.
  change (nl +:+ r) with (String LF r).
  by destruct (scanLines_line r l "" 0 Hlf ltac:(lia) ltac:(lia)) as [-> _].
Qed.

Lemma parse_laidOut `{Unicode.RangeTables} (l x r : string) :
  untrimmable l → occurs "/" l = false → laidOut l x →
  occurs LF x = false → len x < Bufio.MaxScanTokenSize →
  parse (x +:+ nl +:+ r) = parseLines (l :: Bufio.Scan r) [].
Proof.
  intros Hl Hslash Hx Hlf Hshort. unfold parse.
  rewrite (Scan_line _ _ Hlf Hshort). apply parseLines_commandOf.
  rewrite (laidOut_commandOf l _ Hl Hslash (laidOut_dropCR _ _ Hl Hx)).
  symmetry. apply (laidOut_commandOf l l Hl Hslash).
  exists "", "", "". split_and!; [done | done | by left|].
  by rewrite !str_app_empty_r.
Qed.

Lemma laidOut_bare (ws1 l ws2 : string) :
  isBlank ws1 = true → isBlank ws2 = true →
  laidOut l (ws1 +:+ l +:+ ws2).
Proof.
  intros Hws1 Hws2. exists ws1, ws2, "".
  split_and!; [done | done | by left|]. by rewrite !str_app_empty_r.
Qed.

Lemma laidOut_comment (ws1 l ws2 comment : string) :
  isBlank ws1 = true → isBlank ws2 = true →
  laidOut l (ws1 +:+ l +:+ ws2 +:+ "//" +:+ comment).
Proof.
  intros Hws1 Hws2. exists ws1, ws2, ("//" +:+ comment).
  split_and!; [done | done | right; by exists comment | done].
Qed.

(** White space around a command and a comment behind it are ignored: the
    line [ws1 l ws2], with or without [// comment] behind it, is parsed as
    the line [l].  Here [ws1] and [ws2] are ASCII white space, [l] neither
    starts nor ends with white space and holds no slash, and the line is
    shorter than the scanner's buffer. *)
Theorem parse_layout `{Unicode.RangeTables} (ws1 l ws2 comment r : string) :
  isBlank ws1 = true → isBlank ws2 = true →
  untrimmable l → occurs "/" l = false →
  occurs LF (ws1 +:+ l +:+ ws2 +:+ "//" +:+ comment) = false →
  len (ws1 +:+ l +:+ ws2 +:+ "//" +:+ comment) < Bufio.MaxScanTokenSize →
  parse ((ws1 +:+ l +:+ ws2) +:+ nl +:+ r) = parse (l +:+ nl +:+ r)
  ∧ parse ((ws1 +:+ l +:+ ws2 +:+ "//" +:+ comment) +:+ nl +:+ r)
    = parse (l +:+ nl +:+ r).
Proof.
  intros Hws1 Hws2 Hl Hslash Hlf Hshort.
  rewrite !occurs_app in Hlf. rewrite !len_app in Hshort.
  apply orb_false_elim in Hlf as [Hlf1 Hlf].
  apply orb_false_elim in Hlf as [Hlfl Hlf].
  apply orb_false_elim in Hlf as [Hlf2 Hlf].
  pose proof (len_nonneg ws1). pose proof (len_nonneg ws2).
  pose proof (len_nonneg l). pose proof (len_nonneg comment).
  pose proof (len_nonneg "//").
  assert (Hbare : parse (l +:+ nl +:+ r) = parseLines (l :: Bufio.Scan r) []).
  { replace (l +:+ nl +:+ r) with (("" +:+ l +:+ "") +:+ nl +:+ r)
      by (by rewrite str_app_empty_l, str_app_empty_r).
    apply (parse_laidOut l); [done | done | by apply laidOut_bare | |].
    - by rewrite str_app_empty_l, str_app_empty_r.
    - rewrite str_app_empty_l, str_app_empty_r. lia. }
  rewrite Hbare. split.
  - apply (parse_laidOut l); [done | done | by apply laidOut_bare | |].
    + by rewrite !occurs_app, Hlf1, Hlfl, Hlf2.
    + rewrite !len_app. lia.
  - apply (parse_laidOut l); [done | done | by apply laidOut_comment | |].
    + by rewrite !occurs_app, Hlf1, Hlfl, Hlf2, Hlf.
    + rewrite !len_app. lia.
Qed.

Lemma parse_layout_witness :
  isBlank "  " = true ∧ isBlank " " = true
  ∧ untrimmable "D=A" ∧ occurs "/" "D=A" = false
  ∧ occurs LF ("  " +:+ "D=A" +:+ " " +:+ "//" +:+ " x") = false
  ∧ len ("  " +:+ "D=A" +:+ " " +:+ "//" +:+ " x") < Bufio.MaxScanTokenSize
  ∧ parse (H := Latin1) (("  " +:+ "D=A" +:+ " ") +:+ nl +:+ "@2")
    = parse (H := Latin1) ("D=A" +:+ nl +:+ "@2")
  ∧ parse (H := Latin1)
      (("  " +:+ "D=A" +:+ " " +:+ "//" +:+ " x") +:+ nl +:+ "@2")
    = parse (H := Latin1) ("D=A" +:+ nl +:+ "@2").
Proof.
  assert (Hl : untrimmable "D=A").
  { right. exists "D"%char, "A"%char. by split_and!. }
  split; [reflexivity|]. split; [reflexivity|]. split; [exact Hl|].
  split; [reflexivity|]. split; [reflexivity|]. split; [reflexivity|].
  exact (parse_layout (H := Latin1) "  " "D=A" " " " x" "@2"
           eq_refl eq_refl Hl eq_refl eq_refl eq_refl).
Defined.

(** A line of white space, with or without a comment behind it, yields no
    instruction. *)
Theorem parse_blank_line `{Unicode.RangeTables} (ws comment r : string) :
  isBlank ws = true →
  occurs LF (ws +:+ "//" +:+ comment) = false →
  len (ws +:+ "//" +:+ comment) < Bufio.MaxScanTokenSize →
  parse (ws +:+ nl +:+ r) = parse r
  ∧ parse ((ws +:+ "//" +:+ comment) +:+ nl +:+ r) = parse r.
Proof.
  intros Hws Hlf Hshort.
  rewrite !occurs_app in Hlf. rewrite !len_app in Hshort.
  apply orb_false_elim in Hlf as [Hlf1 Hlf].
  pose proof (len_nonneg ws). pose proof (len_nonneg comment).
  pose proof (len_nonneg "//").
  assert (Hnone : untrimmable "") by (by left).
  assert (Hempty : parseLines ("" :: Bufio.Scan r) [] = parse r)
    by reflexivity.
  rewrite <- Hempty. split.
  - apply (parse_laidOut ""); [done | done | | done | lia].
    pose proof (laidOut_bare ws "" "" Hws eq_refl) as Hx.
    by rewrite str_app_empty_l, str_app_empty_r in Hx.
  - apply (parse_laidOut ""); [done | done | | |].
    + pose proof (laidOut_comment ws "" "" comment Hws eq_refl) as Hx.
      by rewrite !str_app_empty_l in Hx.
    + by rewrite !occurs_app, Hlf1, Hlf.
    + rewrite !len_app. lia.
Qed.

Lemma parse_blank_line_witness :
  isBlank "  " = true
  ∧ occurs LF ("  " +:+ "//" +:+ " x") = false
  ∧ len ("  " +:+ "//" +:+ " x") < Bufio.MaxScanTokenSize
  ∧ parse (H := Latin1) ("  " +:+ nl +:+ "@2") = parse (H := Latin1) "@2"
  ∧ parse (H := Latin1) (("  " +:+ "//" +:+ " x") +:+ nl +:+ "@2")
    = parse (H := Latin1) "@2".
Proof.
  split; [reflexivity|]. split; [reflexivity|]. split; [reflexivity|].
  exact (parse_blank_line (H := Latin1) "  " " x" "@2"
           eq_refl eq_refl eq_refl).
Defined.

(** ** The text of a C-instruction *)

Lemma every_cons (f : ascii → bool) (c : ascii) (s : string) :
  every f (String c s) = f c && every f s.
Proof. reflexivity. Qed.

Lemma every_app (f : ascii → bool) (s t : string) :
  every f (s +:+ t) = every f s && every f t.
Proof.
  induction s as [|c s IH]; [done|].
  rewrite str_app_cons, !every_cons, IH. by rewrite andb_assoc.
Qed.

Lemma every_impl (f g : ascii → bool) (s : string) :
  (∀ c, f c = true → g c = true) → every f s = true → every g s = true.
Proof.
  intros Hfg. induction s as [|c s IH]; [done|].
  rewrite !every_cons. intros Hs. apply andb_prop in Hs as [Hc Hs].
  by rewrite (Hfg _ Hc), (IH Hs).
Qed.

Lemma every_not_occurs (f : ascii → bool) (s : string) (c : ascii) :
  every f s = true → f c = false → occurs c s = false.
Proof.
  intros Hs Hc. induction s as [|d s IH]; [done|].
  rewrite every_cons in Hs. apply andb_prop in Hs as [Hd Hs].
  rewrite occurs_cons, (IH Hs), orb_false_r.
  destruct (Ascii.eqb_spec c d) as [->|]; [congruence | done].
Qed.

Lemma every_last (f : ascii → bool) (s : string) (d : ascii) :
  every f s = true → Str.last s = Some d → f d = true.
Proof.
  intros Hs Hlast. destruct (str_snoc s) as [->|(s' & d' & ->)]; [done|].
  rewrite last_snoc in Hlast. injection Hlast as ->.
  rewrite every_app, every_cons in Hs.
  apply andb_prop in Hs as [_ Hs]. by apply andb_prop in Hs as [Hs _].
Qed.

Lemma every_untrimmable (f : ascii → bool) (s : string) :
  (∀ c, f c = true → solid c = true) → every f s = true → untrimmable s.
Proof.
  intros Hf Hs. destruct s as [|c s]; [by left|]. right.
  destruct (str_snoc (String c s)) as [Hnil|(s' & d & Hsnoc)]; [done|].
  assert (Hlast : Str.last (String c s) = Some d)
    by (rewrite Hsnoc; apply last_snoc).
  exists c, d. split_and!; [done | done | |].
  - rewrite every_cons in Hs. apply andb_prop in Hs as [Hc _]. by apply Hf.
  - apply Hf. by apply (every_last f (String c s)).
Qed.

Lemma lineChar_solid (c : ascii) : lineChar c = true → solid c = true.
Proof. unfold lineChar. intros Hc. by apply andb_prop in Hc as [Hc _]. Qed.

Lemma fieldChar_lineChar (c : ascii) : fieldChar c = true → lineChar c = true.
Proof. unfold fieldChar. intros Hc. by apply andb_prop in Hc as [Hc _]. Qed.

Lemma fieldChar_solid (c : ascii) : fieldChar c = true → solid c = true.
Proof. intros Hc. by apply lineChar_solid, fieldChar_lineChar. Qed.

Lemma TrimSpace_untrimmable (s : string) :
  untrimmable s → Strings.TrimSpace s = s.
Proof.
  intros Hs. pose proof (TrimSpace_blank "" s "" eq_refl eq_refl Hs) as Ht.
  by rewrite str_app_empty_l, str_app_empty_r in Ht.
Qed.

(** Cutting [comp] or [comp;jump] at the semicolon. *)
Lemma Cut_jump (comp jump : string) :
  occurs ";" comp = false →
  ∃ found,
    Strings.Cut (comp +:+ (if decide (jump = "") then "" else ";" +:+ jump)) ";"
    = (comp, jump, found).
Proof.
  intros Hcomp. destruct (decide (jump = "")) as [->|_].
  - exists false. rewrite str_app_empty_r.
    change ";" with (String ";" ""). by apply Cut_absent.
  - exists true. change (";" +:+ jump) with (String ";" "" +:+ jump).
    by apply Cut_first.
Qed.

Lemma parseCInstruction_text (c : cInstruction) :
  untrimmable (Dest c) → untrimmable (Comp c) → untrimmable (Jump c) →
  occurs "=" (Dest c) = false → occurs ";" (Comp c) = false →
  (Dest c = "" → occurs "=" (Comp c) = false ∧ occurs "=" (Jump c) = false) →
  parseCInstruction (textOf c) = inl c.
Proof.
  destruct c as [dest comp jump]. cbn [Dest Comp Jump].
  intros Hdest Hcomp Hjump Hd Hc Hnone.
  unfold parseCInstruction, textOf. cbn [Dest Comp Jump].
  destruct (Cut_jump comp jump Hc) as [found Hcut].
  destruct (decide (dest = "")) as [->|Hsome].
  - destruct (Hnone eq_refl) as [Hce Hje]. rewrite str_app_empty_l.
    change "=" with (String "=" ""). rewrite Cut_absent.
    2: { rewrite occurs_app, Hce. destruct (decide (jump = "")); [done|].
         by rewrite occurs_app, Hje. }
    rewrite Hcut.
    by rewrite !TrimSpace_untrimmable by (done || by left).
  - rewrite !str_app_assoc.
    change ("=" +:+ ?x) with (String "=" "" +:+ x).
    change "=" with (String "=" ""). rewrite (Cut_first _ _ _ _ Hd), Hcut.
    by rewrite !TrimSpace_untrimmable.
Qed.

(** The parser reads the text [dest=comp;jump] of a C-instruction back
    into its fields; [dest=] is left out for an empty dest and [;jump] for
    an empty jump.  The fields are to have no white space at their ends,
    dest no equals sign and comp no semicolon; without a dest, comp and
    jump are to have no equals sign either. *)
Theorem parseCInstruction_textOf (c : cInstruction) :
  untrimmable (Dest c) → untrimmable (Comp c) → untrimmable (Jump c) →
  occurs "=" (Dest c) = false → occurs ";" (Comp c) = false →
  (Dest c = "" → occurs "=" (Comp c) = false ∧ occurs "=" (Jump c) = false) →
  parseCInstruction (textOf c) = inl c
  ∧ (Dest c ≠ "" → Jump c ≠ "" →
     textOf c = Dest c +:+ "=" +:+ Comp c +:+ ";" +:+ Jump c).
Proof.
  intros Hdest Hcomp Hjump Hd Hc Hnone.
  split; [by apply parseCInstruction_text|].
  intros Hsome Hj. unfold textOf.
  destruct (decide (Dest c = "")); [done|].
  destruct (decide (Jump c = "")); [done|].
  by rewrite !str_app_assoc.
Qed.
